(** * Code-Dependency-Analysis: extractor, loader and analyzer

  A shallow embedding of [parser.py], [loader.py] and [analyzer.py].
  The Python syntax tree is an inductive type, the [ast.NodeVisitor]
  is a state transformer on the finder object, the Neo4j database is a
  record of stored variables and relationships, and every Cypher query
  of the source is a function of that record. *)

From Stdlib Require Import String Ascii List Arith ZArith Lia Bool.
From stdpp Require Import gmap strings list fin_maps sorting.

Set Warnings "-register-all,-clear-no-such-hyp".

Open Scope string_scope.
Open Scope list_scope.
Open Scope nat_scope.

(** ** parser.py *)

Module Parser.

(** [ast.expr_context]. *)
Inductive expr_context := Load | Store | Del.

(** Expressions.  The visitor tells [ast.Name] and [ast.Tuple] apart
    from everything else; any other node ([BinOp], [Call],
    [Attribute], [Subscript], [List], [Starred], [Constant], ...) is
    [OtherExpr] with its child expressions in the order in which
    [generic_visit] walks them. *)
Inductive expr :=
| Name (id : string) (ctx : expr_context) (lineno : nat)
| Tuple (elts : list expr) (ctx : expr_context) (lineno : nat)
| OtherExpr (fields : list expr).

(** Statements.  [OtherStmt] is any statement without a visitor method
    ([FunctionDef], [If], [For], [Expr], [AnnAssign], ...); its children
    are the expressions and statements below it in traversal order. *)
Inductive stmt :=
| Assign (targets : list expr) (value : expr) (lineno : nat)
| AugAssign (target : expr) (value : expr) (lineno : nat)
| OtherStmt (children : list (expr + stmt)).

(** One dependency: (assigned_var, used_var, line_number, filepath). *)
Definition dep : Type := string * string * nat * string.

Definition dep_key (d : dep) : string * string := (d.1.1.1, d.1.1.2).

(** The attributes of a [VariableDependencyFinder]. *)
Record finder := {
  dependencies : list dep;
  current_assign_target : option string;
  current_line : nat;
  filepath : string;
  variable_locations : gmap string (list nat);
  all_variables : gset string
}.

Definition init (path : string) : finder :=
  {| dependencies := []; current_assign_target := None; current_line := 0;
     filepath := path; variable_locations := ∅; all_variables := ∅ |}.

Definition set_line (ln : nat) (st : finder) : finder :=
  {| dependencies := dependencies st;
     current_assign_target := current_assign_target st;
     current_line := ln; filepath := filepath st;
     variable_locations := variable_locations st;
     all_variables := all_variables st |}.

Definition set_target (t : option string) (st : finder) : finder :=
  {| dependencies := dependencies st; current_assign_target := t;
     current_line := current_line st; filepath := filepath st;
     variable_locations := variable_locations st;
     all_variables := all_variables st |}.

Definition add_variable (x : string) (st : finder) : finder :=
  {| dependencies := dependencies st;
     current_assign_target := current_assign_target st;
     current_line := current_line st; filepath := filepath st;
     variable_locations := variable_locations st;
     all_variables := {[x]} ∪ all_variables st |}.

Definition append_dep (d : dep) (st : finder) : finder :=
  {| dependencies := dependencies st ++ [d];
     current_assign_target := current_assign_target st;
     current_line := current_line st; filepath := filepath st;
     variable_locations := variable_locations st;
     all_variables := all_variables st |}.

(** [_record_location]. *)
Definition _record_location (var_name : string) (line_number : nat)
    (st : finder) : finder :=
  {| dependencies := dependencies st;
     current_assign_target := current_assign_target st;
     current_line := current_line st; filepath := filepath st;
     variable_locations :=
       <[var_name := default [] (variable_locations st !! var_name)
                       ++ [line_number]]> (variable_locations st);
     all_variables := all_variables st |}.

(** Truth value of [self.current_assign_target]: [None] and the empty
    string are false. *)
Definition truthy (t : option string) : option string :=
  match t with
  | Some s => if decide (s = "") then None else Some s
  | None => None
  end.

Definition is_load (c : expr_context) : bool :=
  match c with Load => true | _ => false end.

(** [visit_Name]. *)
Definition visit_Name (id : string) (ctx : expr_context) (lineno : nat)
    (st : finder) : finder :=
  match truthy (current_assign_target st) with
  | Some assigned_var =>
      if is_load ctx
      then append_dep (assigned_var, id, lineno, filepath st)
             (add_variable id st)
      else st
  | None => st
  end.

(** [visit] on an expression: [visit_Name] on names, [generic_visit]
    (the children, left to right) on every other node. *)
Fixpoint visit_expr (e : expr) (st : finder) : finder :=
  match e with
  | Name id ctx lineno => visit_Name id ctx lineno st
  | Tuple elts _ _ => fold_left (fun s x => visit_expr x s) elts st
  | OtherExpr fields => fold_left (fun s x => visit_expr x s) fields st
  end.

(** The body shared by the three places of [visit_Assign] and by
    [visit_AugAssign] that bind a target, record it and visit a value. *)
Definition bind_and_visit (id : string) (lineno : nat) (value : expr)
    (st : finder) : finder :=
  set_target None
    (visit_expr value
       (_record_location id lineno (add_variable id (set_target (Some id) st)))).

(** One turn of the loops over [target_tuple.elts]. *)
Definition visit_target_elt (lineno : nat) (target_node value_node : expr)
    (st : finder) : finder :=
  match target_node with
  | Name id _ _ => bind_and_visit id lineno value_node st
  | _ => st
  end.

(** [visit_Assign]. *)
Definition visit_Assign (targets : list expr) (value : expr) (lineno : nat)
    (st : finder) : finder :=
  let st := set_line lineno st in
  match targets with
  | [Name id _ _] => bind_and_visit id lineno value st
  | [Tuple telts _ _] =>
      match value with
      | Tuple velts _ _ =>
          fold_left (fun s tv => visit_target_elt lineno tv.1 tv.2 s)
            (zip telts velts) st
      | _ =>
          fold_left (fun s t => visit_target_elt lineno t value s) telts st
      end
  | _ => st
  end.

(** [visit_AugAssign]. *)
Definition visit_AugAssign (target : expr) (value : expr) (lineno : nat)
    (st : finder) : finder :=
  let st := set_line lineno st in
  match target with
  | Name assigned_var _ _ =>
      let st := _record_location assigned_var lineno
                  (add_variable assigned_var st) in
      let st := append_dep (assigned_var, assigned_var, lineno, filepath st) st in
      set_target None (visit_expr value (set_target (Some assigned_var) st))
  | _ => st
  end.

(** [visit] on a statement. *)
Fixpoint visit_stmt (s : stmt) (st : finder) : finder :=
  match s with
  | Assign targets value lineno => visit_Assign targets value lineno st
  | AugAssign target value lineno => visit_AugAssign target value lineno st
  | OtherStmt children =>
      fold_left
        (fun acc c =>
           match c with
           | inl e => visit_expr e acc
           | inr s' => visit_stmt s' acc
           end) children st
  end.

(** [finder.visit(tree)] on an [ast.Module]. *)
Definition visit_Module (body : list stmt) (st : finder) : finder :=
  fold_left (fun acc s => visit_stmt s acc) body st.

(** The functions above give the finder that a visit leaves when it
    runs to its end.  The visit is recursive on the Python stack:
    [visit] on a node calls the method of the node, and
    [generic_visit], [visit_Assign] and [visit_AugAssign] call [visit]
    again on what they walk.  The functions below count how deep these
    calls of [visit] nest under a node; [visit_Name] calls nothing. *)
Fixpoint expr_depth (e : expr) : nat :=
  match e with
  | Name _ _ _ => 1
  | Tuple elts _ _ => S (max_list (map expr_depth elts))
  | OtherExpr fields => S (max_list (map expr_depth fields))
  end.

(** One turn of the loops over [target_tuple.elts]: the value is
    visited only for a target that is a name. *)
Definition target_elt_depth (target_node value_node : expr) : nat :=
  match target_node with
  | Name _ _ _ => expr_depth value_node
  | _ => 0
  end.

(** [visit_Assign] visits the value, or the values paired with names,
    and nothing when the target is neither a name nor a tuple. *)
Definition Assign_depth (targets : list expr) (value : expr) : nat :=
  S (match targets with
     | [Name _ _ _] => expr_depth value
     | [Tuple telts _ _] =>
         match value with
         | Tuple velts _ _ =>
             max_list (map (fun tv => target_elt_depth tv.1 tv.2)
                         (zip telts velts))
         | _ => max_list (map (fun t => target_elt_depth t value) telts)
         end
     | _ => 0
     end).

Definition AugAssign_depth (target value : expr) : nat :=
  S (match target with
     | Name _ _ _ => expr_depth value
     | _ => 0
     end).

Fixpoint stmt_depth (s : stmt) : nat :=
  match s with
  | Assign targets value _ => Assign_depth targets value
  | AugAssign target value _ => AugAssign_depth target value
  | OtherStmt children =>
      S (max_list
           (map (fun c => match c with
                          | inl e => expr_depth e
                          | inr s' => stmt_depth s'
                          end) children))
  end.

Definition Module_depth (body : list stmt) : nat :=
  S (max_list (map stmt_depth body)).

(** The de-duplication loop of [find_variable_deps]: the state is
    ([seen], [unique_deps]). *)
Definition unique_step (acc : gset (string * string) * list dep) (d : dep)
    : gset (string * string) * list dep :=
  if decide (dep_key d ∈ acc.1) then acc
  else ({[dep_key d]} ∪ acc.1, acc.2 ++ [d]).

Definition unique_deps (deps : list dep) : list dep :=
  (fold_left unique_step deps (∅, [])).2.

(** What [find_variable_deps] finds at [filepath]: no file, a file
    that cannot be read, a file on which [ast.parse] raises
    [SyntaxError] or another exception, or a file that parses. *)
Inductive source :=
| Missing
| Unreadable
| BadSyntax (lineno : nat) (msg : string)
| ParseRaises
| Module_ (body : list stmt).

(** The exceptions that leave [find_variable_deps]; [ParsingError] is
    the [Exception("Error parsing ...")] of its last handler. *)
Inductive error :=
| FileNotFoundError
| IOError
| SyntaxError (lineno : nat) (msg : string)
| ParsingError.

(** [find_variable_deps].  [limit] is the number of nested calls of
    [visit] that the interpreter still allows when [finder.visit(tree)]
    is called (each costs two frames of the recursion limit, [visit]
    and the method it calls).  A visit that nests deeper raises
    [RecursionError] inside the [try], which [except Exception] turns
    into [Exception("Error parsing ...")]. *)
Definition find_variable_deps (limit : nat) (src : source) (path : string)
    : error + list dep :=
  match src with
  | Missing => inl FileNotFoundError
  | Unreadable => inl IOError
  | BadSyntax ln msg => inl (SyntaxError ln msg)
  | ParseRaises => inl ParsingError
  | Module_ body =>
      if Nat.leb (Module_depth body) limit
      then inr (unique_deps (dependencies (visit_Module body (init path))))
      else inl ParsingError
  end.


End Parser.

(** ** The Neo4j database

    Only what the Cypher statements of [loader.py] and [analyzer.py] can
    observe: the [Variable] nodes by name and the [DEPENDS_ON]
    relationships with their two properties, both in creation order. *)

Module Store.

Record relationship := {
  from_name : string;
  to_name : string;
  line_number : nat;
  rel_filepath : string
}.

Record graph_db := {
  variables : list string;
  depends_on : list relationship
}.

Definition empty_db : graph_db := {| variables := []; depends_on := [] |}.

(** A directed edge, as the analysis queries return it. *)
Definition edge : Type := string * string.

Definition endpoints (r : relationship) : edge := (from_name r, to_name r).

Definition rel_of_dep (d : Parser.dep) : relationship :=
  {| from_name := d.1.1.1; to_name := d.1.1.2;
     line_number := d.1.2; rel_filepath := d.2 |}.

(** [MERGE (a:Variable {name: n})]. *)
Definition merge_variable (n : string) (vs : list string) : list string :=
  if decide (n ∈ vs) then vs else vs ++ [n].

(** [MERGE (a)-[r:DEPENDS_ON]->(b) ON CREATE SET r.line_number = ...,
    r.filepath = ...]: a relationship between the two nodes is matched
    whatever its properties; the properties are set only on creation. *)
Definition merge_depends_on (r : relationship) (rs : list relationship)
    : list relationship :=
  if decide (endpoints r ∈ map endpoints rs) then rs else rs ++ [r].

(** The three [MERGE] clauses for one row of [UNWIND $data as row]. *)
Definition merge_row (db : graph_db) (row : relationship) : graph_db :=
  {| variables :=
       merge_variable (to_name row) (merge_variable (from_name row) (variables db));
     depends_on := merge_depends_on row (depends_on db) |}.

(** [MATCH (n) DETACH DELETE n]. *)
Definition detach_delete_all (db : graph_db) : graph_db := empty_db.

(** The first stored relationship between two names. *)
Definition find_rel (k : edge) (rs : list relationship) : option relationship :=
  List.find (fun r => bool_decide (endpoints r = k)) rs.

(** [MATCH (a:Variable)-[:DEPENDS_ON]->(b:Variable)
     RETURN a.name as from, b.name as to].  Cypher leaves the order of
     the rows of a [MATCH] without [ORDER BY] to the store; the rows
     are given here in the order of creation, one of the orders the
     store may choose. *)
Definition all_edges (db : graph_db) : list edge :=
  map endpoints (depends_on db).

End Store.

(** ** loader.py *)

Module Loader.
Import Store.

(** [_batch_create_relationships]: [batch_data] is the list of rows, the
    query merges them one after the other. *)
Definition _batch_create_relationships (db : graph_db)
    (relationships : list Parser.dep) : graph_db :=
  let batch_data := map rel_of_dep relationships in
  fold_left merge_row batch_data db.

(** [load_from_file] on a connected loader: the new database and the
    number of relationships returned, or the error it re-raises.
    [limit] is the one of [find_variable_deps]. *)
Definition load_from_file (limit : nat) (db : graph_db) (src : Parser.source)
    (path : string) : Parser.error + (graph_db * nat) :=
  match Parser.find_variable_deps limit src path with
  | inl e => inl e
  | inr deps =>
      inr (match deps with
           | [] => db
           | _ => _batch_create_relationships db deps
           end, length deps)
  end.

(** [load_from_directory]: files that fail are skipped. *)
Definition load_from_directory (limit : nat) (db : graph_db)
    (files : list (string * Parser.source)) : graph_db * nat :=
  fold_left
    (fun acc f =>
       match load_from_file limit acc.1 f.2 f.1 with
       | inl _ => acc
       | inr (db', count) => (db', acc.2 + count)
       end) files (db, 0).

(** [clear_database]. *)
Definition clear_database (db : graph_db) : graph_db := detach_delete_all db.

End Loader.

(** ** The Cypher queries of analyzer.py *)

Module Cypher.
Import Store.

(** [ORDER BY]: a stable insertion sort, so rows that compare equal stay
    in the order in which the store produced them. *)
Fixpoint insert_by {A} (le : A → A → bool) (x : A) (l : list A) : list A :=
  match l with
  | [] => [x]
  | y :: l' => if le x y then x :: l else y :: insert_by le x l'
  end.

Fixpoint order_by {A} (le : A → A → bool) (l : list A) : list A :=
  match l with
  | [] => []
  | x :: l' => insert_by le x (order_by le l')
  end.

(** [-[:DEPENDS_ON*]->] from [cur]: the paths of exactly [k]
    relationships that repeat no relationship (and none of [used]).  A
    relationship is named by its end points: [MERGE] never stores two
    between the same ordered pair. *)
Fixpoint trails (es : list edge) (k : nat) (used : list edge) (cur : string)
    : list (list edge) :=
  match k with
  | 0 => [[]]
  | S k' =>
      flat_map
        (fun e =>
           if decide (e.1 = cur ∧ e ∉ used)
           then map (cons e) (trails es k' (e :: used) e.2)
           else [])
        es
  end.

(** All matches of [(cur)-[:DEPENDS_ON*]->()]: one hop or more, at most
    as many as there are relationships, shortest first. *)
Definition var_length_paths (es : list edge) (cur : string)
    : list (list edge) :=
  flat_map (fun k => trails es k [] cur) (seq 1 (length es)).

(** Where a path from [start] ends, and [[n in nodes(path) | n.name]]. *)
Definition path_end (start : string) (p : list edge) : string :=
  List.last (map snd p) start.

Definition path_nodes (start : string) (p : list edge) : list string :=
  start :: map snd p.

(** The relationships read against their direction. *)
Definition reversed (es : list edge) : list edge :=
  map (fun e => (e.2, e.1)) es.

(** [MATCH path = (start:Variable)-[:DEPENDS_ON*]->(start:Variable)
     WHERE length(path) > 0
     RETURN [n in nodes(path) | n.name] as cycle LIMIT 100]. *)
Definition cycle_paths (db : graph_db) : list (list string) :=
  take 100
    (flat_map
       (fun start =>
          map (path_nodes start)
            (filter (fun p => path_end start p = start)
               (var_length_paths (all_edges db) start)))
       (variables db)).

(** [ORDER BY depth, name]. *)
Definition depth_name_le (a b : string * nat) : bool :=
  Nat.ltb a.2 b.2 || (Nat.eqb a.2 b.2 && String.leb a.1 b.1).

(** The rows [name, length(path)] of the paths from [v] over [es] that
    end at another node: [RETURN DISTINCT ... ORDER BY depth, name]. *)
Definition reach_rows (es : list edge) (v : string) : list (string * nat) :=
  order_by depth_name_le
    (remove_dups
       (map (fun p => (path_end v p, length p))
          (filter (fun p => path_end v p ≠ v) (var_length_paths es v)))).

(** [MATCH (start:Variable {name: $var_name})
     MATCH path = (dependent:Variable)-[:DEPENDS_ON*]->(start)
     WHERE dependent <> start
     RETURN DISTINCT dependent.name as affected_var, length(path) as depth
     ORDER BY depth, affected_var]: a path into [start] is a path out of
    it over the reversed relationships. *)
Definition impact_rows (db : graph_db) (var_name : string)
    : list (string * nat) :=
  if decide (var_name ∈ variables db)
  then reach_rows (reversed (all_edges db)) var_name
  else [].

(** [MATCH (start:Variable {name: $var_name})
     MATCH path = (start)-[:DEPENDS_ON*]->(dependency:Variable)
     WHERE dependency <> start
     RETURN DISTINCT dependency.name as dep_var, length(path) as depth
     ORDER BY depth, dep_var]. *)
Definition dependency_rows (db : graph_db) (var_name : string)
    : list (string * nat) :=
  if decide (var_name ∈ variables db)
  then reach_rows (all_edges db) var_name
  else [].

(** [ORDER BY length(path)]. *)
Definition shorter_le (p q : list string) : bool :=
  Nat.leb (length p) (length q).

(** [MATCH path = (start:Variable {name: $from_var})-[:DEPENDS_ON*]->
                   (end:Variable {name: $to_var})
     WITH path, [n in nodes(path) | n.name] as path_list
     RETURN path_list ORDER BY length(path) LIMIT 20]. *)
Definition path_rows (db : graph_db) (from_var to_var : string)
    : list (list string) :=
  if decide (from_var ∈ variables db)
  then take 20
         (order_by shorter_le
            (map (path_nodes from_var)
               (filter (fun p => path_end from_var p = to_var)
                  (var_length_paths (all_edges db) from_var))))
  else [].

(** Degrees: the number of stored relationships into and out of a node. *)
Definition in_degree (db : graph_db) (v : string) : nat :=
  length (filter (fun r => to_name r = v) (depends_on db)).

Definition out_degree (db : graph_db) (v : string) : nat :=
  length (filter (fun r => from_name r = v) (depends_on db)).

(** [ORDER BY count DESC]. *)
Definition count_desc_le (a b : string * nat) : bool := Nat.leb b.2 a.2.

(** [MATCH (v:Variable) RETURN count(v) as count]. *)
Definition count_variables (db : graph_db) : list nat :=
  [length (variables db)].

(** [MATCH ()-[r:DEPENDS_ON]->() RETURN count(r) as count]. *)
Definition count_depends_on (db : graph_db) : list nat :=
  [length (depends_on db)].

(** [MATCH (v:Variable)<-[:DEPENDS_ON]-(dependent)
     WITH v, count(dependent) as count
     RETURN v.name as var, count ORDER BY count DESC LIMIT 10]: one
    group per node that has a match.  The query orders by count only;
    rows of equal count are given here in the order of the node scan,
    one of the orders the store may choose. *)
Definition most_dependent_rows (db : graph_db) : list (string * nat) :=
  take 10
    (order_by count_desc_le
       (map (fun v => (v, in_degree db v))
          (filter (fun v => 0 < in_degree db v) (variables db)))).

(** [MATCH (v:Variable)-[:DEPENDS_ON]->(dep)
     WITH v, count(dep) as count
     RETURN v.name as var, count ORDER BY count DESC LIMIT 10]. *)
Definition most_dependencies_rows (db : graph_db) : list (string * nat) :=
  take 10
    (order_by count_desc_le
       (map (fun v => (v, out_degree db v))
          (filter (fun v => 0 < out_degree db v) (variables db)))).

(** The pattern predicates [(v)<-[:DEPENDS_ON]-()], [(v)-[:DEPENDS_ON]->()]
    and [(v)-[:DEPENDS_ON]-()]. *)
Definition has_incoming (db : graph_db) (v : string) : bool :=
  existsb (fun r => bool_decide (to_name r = v)) (depends_on db).

Definition has_outgoing (db : graph_db) (v : string) : bool :=
  existsb (fun r => bool_decide (from_name r = v)) (depends_on db).

Definition has_any (db : graph_db) (v : string) : bool :=
  existsb (fun r => bool_decide (from_name r = v) || bool_decide (to_name r = v))
    (depends_on db).

(** [MATCH (v:Variable) WHERE NOT (v)-[:DEPENDS_ON]-() RETURN v.name as var]. *)
Definition isolated_rows (db : graph_db) : list string :=
  filter (fun v => negb (has_any db v)) (variables db).

(** [MATCH (v:Variable) WHERE NOT (v)<-[:DEPENDS_ON]-() RETURN v.name as var],
    the [root_variables] query of [get_metrics]. *)
Definition root_rows (db : graph_db) : list string :=
  filter (fun v => negb (has_incoming db v)) (variables db).

(** [MATCH (v:Variable) WHERE NOT (v)-[:DEPENDS_ON]->() RETURN v.name as var]. *)
Definition leaf_rows (db : graph_db) : list string :=
  filter (fun v => negb (has_outgoing db v)) (variables db).

(** [MATCH (v:Variable) WHERE NOT (v)<-[:DEPENDS_ON]-() RETURN v.name as var],
    the query of [find_unused_variables]. *)
Definition unused_rows (db : graph_db) : list string :=
  filter (fun v => negb (has_incoming db v)) (variables db).

End Cypher.

(** ** analyzer.py *)

Module Analyzer.
Import Store.

(** *** Tarjan's algorithm ([_tarjan_cycles]) *)

(** [graph = defaultdict(list)], in insertion order of its keys. *)
Fixpoint graph_append (k v : string) (graph : list (string * list string))
    : list (string * list string) :=
  match graph with
  | [] => [(k, [v])]
  | (k', ws) :: graph' =>
      if decide (k' = k) then (k', ws ++ [v]) :: graph'
      else (k', ws) :: graph_append k v graph'
  end.

Definition build_graph (records : list edge) : list (string * list string) :=
  fold_left (fun graph r => graph_append r.1 r.2 graph) records [].

(** [graph.get(v, [])]. *)
Definition graph_get (graph : list (string * list string)) (v : string)
    : list string :=
  match List.find (fun kv => bool_decide (kv.1 = v)) graph with
  | Some kv => kv.2
  | None => []
  end.

(** The variables that [strongconnect] closes over.  [stack] is kept
    with its top first. *)
Record tarjan_state := {
  index : gmap string nat;
  lowlink : gmap string nat;
  stack : list string;
  on_stack : gset string;
  cycles : list (list string);
  index_counter : nat
}.

Definition tarjan_init : tarjan_state :=
  {| index := ∅; lowlink := ∅; stack := []; on_stack := ∅; cycles := [];
     index_counter := 0 |}.

(** The first five statements of [strongconnect]. *)
Definition enter (v : string) (st : tarjan_state) : tarjan_state :=
  {| index := <[v := index_counter st]> (index st);
     lowlink := <[v := index_counter st]> (lowlink st);
     stack := v :: stack st;
     on_stack := {[v]} ∪ on_stack st;
     cycles := cycles st;
     index_counter := S (index_counter st) |}.

Definition set_lowlink (v : string) (n : nat) (st : tarjan_state)
    : tarjan_state :=
  {| index := index st; lowlink := <[v := n]> (lowlink st);
     stack := stack st; on_stack := on_stack st; cycles := cycles st;
     index_counter := index_counter st |}.

(** The [while True] loop that pops a component; [None] is the
    [IndexError] of [stack.pop()] or the [KeyError] of
    [on_stack.remove(w)]. *)
Fixpoint pop_component (v : string) (stk : list string) (ons : gset string)
    (component : list string)
    : option (list string * gset string * list string) :=
  match stk with
  | [] => None
  | w :: stk' =>
      if decide (w ∈ ons)
      then if decide (w = v)
           then Some (stk', ons ∖ {[w]}, component ++ [w])
           else pop_component v stk' (ons ∖ {[w]}) (component ++ [w])
      else None
  end.

(** [if lowlink[v] == index[v]: ...]. *)
Definition close_component (v : string) (st : tarjan_state)
    : option tarjan_state :=
  lv ← lowlink st !! v;
  iv ← index st !! v;
  if decide (lv = iv)
  then '(stk, ons, component) ← pop_component v (stack st) (on_stack st) [];
       Some {| index := index st; lowlink := lowlink st;
               stack := stk; on_stack := ons;
               cycles := if decide (1 < length component)
                         then cycles st ++ [component] else cycles st;
               index_counter := index_counter st |}
  else Some st.

(** The [for w in graph.get(v, [])] loop of [strongconnect]; [call] is
    the recursive call [strongconnect(w)]. *)
Fixpoint each_successor (call : string → tarjan_state → option tarjan_state)
    (v : string) (ws : list string) (st : tarjan_state)
    : option tarjan_state :=
  match ws with
  | [] => Some st
  | w :: ws' =>
      match index st !! w with
      | None =>
          st ← call w st;
          lv ← lowlink st !! v;
          lw ← lowlink st !! w;
          each_successor call v ws' (set_lowlink v (lv `min` lw) st)
      | Some iw =>
          if decide (w ∈ on_stack st)
          then lv ← lowlink st !! v;
               each_successor call v ws' (set_lowlink v (lv `min` iw) st)
          else each_successor call v ws' st
      end
  end.

(** [strongconnect].  It calls itself on the Python stack; [limit] is
    the number of nested calls of [strongconnect] that the interpreter
    still allows.  [None] is a Python exception: the [RecursionError]
    of a call that the stack does not allow, or a [KeyError] or
    [IndexError] of the body. *)
Fixpoint strongconnect (limit : nat) (graph : list (string * list string))
    (v : string) (st : tarjan_state) : option tarjan_state :=
  match limit with
  | 0 => None
  | S limit' =>
      st ← each_successor (strongconnect limit' graph) v (graph_get graph v)
             (enter v st);
      close_component v st
  end.

(** [for node in graph: if node not in index: strongconnect(node)]. *)
Fixpoint each_node (limit : nat) (graph : list (string * list string))
    (nodes : list string) (st : tarjan_state) : option tarjan_state :=
  match nodes with
  | [] => Some st
  | node :: nodes' =>
      match index st !! node with
      | None => st ← strongconnect limit graph node st;
                each_node limit graph nodes' st
      | Some _ => each_node limit graph nodes' st
      end
  end.

(** [_tarjan_cycles], given the records of its query; [None] is the
    exception that leaves it. *)
Definition _tarjan_cycles (limit : nat) (records : list edge)
    : option (list (list string)) :=
  let graph := build_graph records in
  st ← each_node limit graph (map fst graph) tarjan_init;
  Some (cycles st).

(** *** [detect_cycles] *)

(** The loop over one recorded path: [Some unique_cycle] when the path
    is appended to [cycles]. *)
Fixpoint scan_cycle (cycle : list string) (seen : gset string)
    (unique_cycle : list string) : option (list string) :=
  match cycle with
  | [] => None
  | var :: cycle' =>
      if decide (var ∉ seen)
      then scan_cycle cycle' ({[var]} ∪ seen) (unique_cycle ++ [var])
      else if decide (head unique_cycle = Some var ∧ 1 < length unique_cycle)
           then Some unique_cycle
           else scan_cycle cycle' seen unique_cycle
  end.

Definition path_cycles (records : list (list string)) : list (list string) :=
  fold_left
    (fun cycles cycle =>
       match scan_cycle cycle ∅ [] with
       | Some unique_cycle => cycles ++ [unique_cycle]
       | None => cycles
       end) records [].

(** [tuple(sorted(cycle))]. *)
Definition cycle_tuple (cycle : list string) : list string :=
  Cypher.order_by String.leb cycle.

(** The loop that removes duplicate cycles: the state is
    ([seen_cycles], [unique_cycles]). *)
Definition unique_cycle_step (acc : gset (list string) * list (list string))
    (cycle : list string) : gset (list string) * list (list string) :=
  if decide (cycle_tuple cycle ∈ acc.1) then acc
  else ({[cycle_tuple cycle]} ∪ acc.1, acc.2 ++ [cycle]).

(** [detect_cycles], given the records of its two queries; [limit] is
    the one of [strongconnect], and [None] the exception of
    [_tarjan_cycles], which nothing catches. *)
Definition detect_cycles_of (limit : nat) (paths : list (list string))
    (edges : list edge) : option (list (list string)) :=
  tarjan ← _tarjan_cycles limit edges;
  Some (snd (fold_left unique_cycle_step (path_cycles paths ++ tarjan) (∅, []))).

Definition detect_cycles (limit : nat) (db : graph_db)
    : option (list (list string)) :=
  detect_cycles_of limit (Cypher.cycle_paths db) (all_edges db).

(** *** [find_impact] and [find_dependencies] *)

(** A Python [dict] keeps its keys in insertion order; assigning to a
    key that is present replaces the value in place. *)
Fixpoint dict_set {V} (k : string) (v : V) (d : list (string * V))
    : list (string * V) :=
  match d with
  | [] => [(k, v)]
  | (k', v') :: d' =>
      if decide (k' = k) then (k, v) :: d' else (k', v') :: dict_set k v d'
  end.

(** [{record[name]: record["depth"] for record in result.records}]. *)
Definition depths_of (records : list (string * nat)) : list (string * nat) :=
  fold_left (fun d r => dict_set r.1 r.2 d) records [].

Module Impact.
Record t := {
  variable : string;
  directly_affected : list string;
  transitively_affected : list string;
  total_affected : nat;
  affected_variables : list string;
  depths : list (string * nat)
}.
End Impact.

Module Dependencies.
Record t := {
  variable : string;
  direct_dependencies : list string;
  transitive_dependencies : list string;
  total_dependencies : nat;
  all_dependencies : list string;
  depths : list (string * nat)
}.
End Dependencies.

(** [find_impact], given the records of its query. *)
Definition find_impact_of (records : list (string * nat))
    (variable_name : string) : Impact.t :=
  let affected := map fst records in
  let depths := depths_of records in
  {| Impact.variable := variable_name;
     Impact.directly_affected :=
       map fst (filter (fun vd => vd.2 = 1) depths);
     Impact.transitively_affected :=
       map fst (filter (fun vd => 1 < vd.2) depths);
     Impact.total_affected := length affected;
     Impact.affected_variables := affected;
     Impact.depths := depths |}.

Definition find_impact (db : graph_db) (variable_name : string) : Impact.t :=
  find_impact_of (Cypher.impact_rows db variable_name) variable_name.

(** [find_dependencies], given the records of its query. *)
Definition find_dependencies_of (records : list (string * nat))
    (variable_name : string) : Dependencies.t :=
  let deps := map fst records in
  let depths := depths_of records in
  {| Dependencies.variable := variable_name;
     Dependencies.direct_dependencies :=
       map fst (filter (fun vd => vd.2 = 1) depths);
     Dependencies.transitive_dependencies :=
       map fst (filter (fun vd => 1 < vd.2) depths);
     Dependencies.total_dependencies := length deps;
     Dependencies.all_dependencies := deps;
     Dependencies.depths := depths |}.

Definition find_dependencies (db : graph_db) (variable_name : string)
    : Dependencies.t :=
  find_dependencies_of (Cypher.dependency_rows db variable_name) variable_name.

(** *** [find_path] *)

Definition find_path (db : graph_db) (from_var to_var : string)
    : list (list string) :=
  Cypher.path_rows db from_var to_var.

(** *** [get_metrics] *)

(** What [self.driver.execute_query] does with one query: it returns
    records or raises. *)
Inductive response (A : Type) :=
| Records (records : list A)
| Raises.
Arguments Records {A} records.
Arguments Raises {A}.

(** The answers of the store to the queries that [get_metrics] sends,
    the seven of its [queries] dictionary and the two of
    [detect_cycles].  A leaderboard row carries [var] and [count], either
    of which the code allows to be [None]. *)
Record answers := {
  a_total_variables : response nat;
  a_total_dependencies : response nat;
  a_most_dependent : response (option string * option nat);
  a_most_dependencies : response (option string * option nat);
  a_isolated_variables : response string;
  a_root_variables : response string;
  a_leaf_variables : response string;
  a_cycle_paths : response (list string);
  a_edges : response edge
}.

Module Metrics.
Record t := {
  total_variables : nat;
  total_dependencies : nat;
  most_dependent : list (string * nat);
  most_dependencies : list (string * nat);
  isolated_variables : list string;
  root_variables : list string;
  leaf_variables : list string;
  circular_dependencies : nat;
  cycles : list (list string)
}.
End Metrics.

(** [records[0]["count"] if records else 0], or [0] in the handler. *)
Definition count_metric (r : response nat) : nat :=
  match r with
  | Records (count :: _) => count
  | Records [] => 0
  | Raises => 0
  end.

(** The loop that builds [result_list], or [[]] in the handler. *)
Definition leaderboard_metric (r : response (option string * option nat))
    : list (string * nat) :=
  match r with
  | Records records =>
      flat_map
        (fun record =>
           match record.1 with
           | None => []
           | Some var_name => [(var_name, default 0 record.2)]
           end) records
  | Raises => []
  end.

(** [[record["var"] for record in records]], or [[]] in the handler. *)
Definition names_metric (r : response string) : list string :=
  match r with
  | Records records => records
  | Raises => []
  end.

(** [detect_cycles] against a store that may raise: nothing catches
    the exception. *)
Definition detect_cycles_answers (limit : nat) (a : answers)
    : option (list (list string)) :=
  match a_cycle_paths a, a_edges a with
  | Records paths, Records edges => detect_cycles_of limit paths edges
  | _, _ => None
  end.

(** [get_metrics]; [None] is an exception that leaves the method: the
    call of [detect_cycles] stands after the loop, outside its [try]. *)
Definition get_metrics_of (limit : nat) (a : answers) : option Metrics.t :=
  cycles ← detect_cycles_answers limit a;
  Some {| Metrics.total_variables := count_metric (a_total_variables a);
          Metrics.total_dependencies := count_metric (a_total_dependencies a);
          Metrics.most_dependent := leaderboard_metric (a_most_dependent a);
          Metrics.most_dependencies := leaderboard_metric (a_most_dependencies a);
          Metrics.isolated_variables := names_metric (a_isolated_variables a);
          Metrics.root_variables := names_metric (a_root_variables a);
          Metrics.leaf_variables := names_metric (a_leaf_variables a);
          Metrics.circular_dependencies := length cycles;
          Metrics.cycles := cycles |}.

Definition leaderboard_records (rows : list (string * nat))
    : response (option string * option nat) :=
  Records (map (fun r => (Some r.1, Some r.2)) rows).

(** The answers of a store that holds [db] and does not fail. *)
Definition answers_of (db : graph_db) : answers :=
  {| a_total_variables := Records (Cypher.count_variables db);
     a_total_dependencies := Records (Cypher.count_depends_on db);
     a_most_dependent := leaderboard_records (Cypher.most_dependent_rows db);
     a_most_dependencies :=
       leaderboard_records (Cypher.most_dependencies_rows db);
     a_isolated_variables := Records (Cypher.isolated_rows db);
     a_root_variables := Records (Cypher.root_rows db);
     a_leaf_variables := Records (Cypher.leaf_rows db);
     a_cycle_paths := Records (Cypher.cycle_paths db);
     a_edges := Records (all_edges db) |}.

Definition get_metrics (limit : nat) (db : graph_db) : option Metrics.t :=
  get_metrics_of limit (answers_of db).

(** *** [find_unused_variables] *)

Definition find_unused_variables (db : graph_db) : list string :=
  Cypher.unused_rows db.

End Analyzer.

(** ** analyzer.py: the critical path and the JSON export *)

Module Report.
Import Store Cypher.








End Report.

(** ** cli.py: loading *)

Module Cli.
Import Store Loader.

(** What [os.path.isfile] and [os.path.isdir] find at the path typed in. *)
Inductive target :=
| IsFile (src : Parser.source)
| IsDir (files : list (string * Parser.source))
| NotFound.

(** [load_files] after the prompt: the database it leaves and the
    count it prints, if it prints one.  [limit] is the one of
    [find_variable_deps]. *)
Definition load_files (limit : nat) (db : graph_db) (path : string)
    (t : target) : graph_db * option nat :=
  let db := clear_database db in
  match t with
  | IsFile src =>
      match load_from_file limit db src path with
      | inr (db', count) => (db', Some count)
      | inl _ => (db, None)
      end
  | IsDir files =>
      let '(db', count) := load_from_directory limit db files in
      (db', Some count)
  | NotFound => (db, None)
  end.

End Cli.

(** * Specification vocabulary *)

(** ** What the extractor emits *)

Module ParserSpec.
Import Parser.

(** The names an expression reads: its [Name] nodes in [Load] context,
    in visiting order, each with its line. *)
Fixpoint loads (e : expr) : list (string * nat) :=
  match e with
  | Name id ctx lineno => if is_load ctx then [(id, lineno)] else []
  | Tuple elts _ _ => flat_map loads elts
  | OtherExpr fields => flat_map loads fields
  end.

(** One dependency of [x] per name read in [e]. *)
Definition edges_to (x path : string) (e : expr) : list dep :=
  map (fun nl => (x, nl.1, nl.2, path)) (loads e).

(** The dependencies of one (target, value) pair of an assignment. *)
Definition target_deps (path : string) (target value : expr) : list dep :=
  match target with
  | Name id _ _ => if decide (id = "") then [] else edges_to id path value
  | _ => []
  end.

(** The dependencies a statement appends, by the shape of the statement. *)
Fixpoint stmt_deps (path : string) (s : stmt) : list dep :=
  match s with
  | Assign [Name id c l] value _ => target_deps path (Name id c l) value
  | Assign [Tuple telts _ _] (Tuple velts _ _) _ =>
      flat_map (fun tv => target_deps path tv.1 tv.2) (zip telts velts)
  | Assign [Tuple telts _ _] value _ =>
      flat_map (fun t => target_deps path t value) telts
  | Assign _ _ _ => []
  | AugAssign (Name x c l) value lineno =>
      (x, x, lineno, path) :: target_deps path (Name x c l) value
  | AugAssign _ _ _ => []
  | OtherStmt children =>
      flat_map
        (fun c => match c with inl _ => [] | inr s' => stmt_deps path s' end)
        children
  end.

(** [occurs s0 s]: the statement [s0] is [s] or lies below it. *)
Inductive occurs (s0 : stmt) : stmt → Prop :=
| occurs_here : occurs s0 s0
| occurs_below children s :
    In (inr s) children → occurs s0 s → occurs s0 (OtherStmt children).

(** [is_name e]: [isinstance(e, ast.Name)]. *)
Definition is_name (e : expr) : bool :=
  match e with Name _ _ _ => true | _ => false end.

(** The (target, value) pairs that [visit_Assign] walks for a tuple
    target: positional when the value is a tuple too, every target
    against the whole value otherwise. *)
Definition target_pairs (telts : list expr) (value : expr)
    : list (expr * expr) :=
  match value with
  | Tuple velts _ _ => zip telts velts
  | _ => map (fun t => (t, value)) telts
  end.

(** How many dependencies of a list have the key [k]. *)
Definition count_key (k : string * string) (deps : list dep) : nat :=
  length (filter (fun d => dep_key d = k) deps).


(** The de-duplication loop as a recursion on what is left to read. *)
Fixpoint keep_first (seen : list (string * string)) (deps : list dep)
    : list dep :=
  match deps with
  | [] => []
  | d :: deps' =>
      if decide (dep_key d ∈ seen) then keep_first seen deps'
      else d :: keep_first (dep_key d :: seen) deps'
  end.

(** [appends st st' new]: visiting took [st] to [st'] by appending [new]
    to the dependencies, leaving the target and the file path alone. *)
Definition appends (st st' : finder) (new : list dep) : Prop :=
  dependencies st' = dependencies st ++ new
  ∧ current_assign_target st' = current_assign_target st
  ∧ filepath st' = filepath st.

End ParserSpec.

(** ** What the loader maintains *)

Module LoaderSpec.
Import Store.


(** A database as the loader builds it: no name stored twice, one
    relationship per ordered pair, and both ends of every relationship
    stored. *)
Definition well_formed (db : graph_db) : Prop :=
  NoDup (variables db) ∧ NoDup (map endpoints (depends_on db))
  ∧ ∀ r, r ∈ depends_on db → from_name r ∈ variables db ∧ to_name r ∈ variables db.

End LoaderSpec.

(** ** The invariant of Tarjan's algorithm *)

Module TarjanSpec.
Import Analyzer.

(** The invariant of the closed-over variables, for the set [U] of the
    names of the graph: [index] and [lowlink] have the same keys, all in
    [U]; the stack repeats no node, holds only indexed nodes, and
    [on_stack] is the set of its nodes. *)
Definition inv (U : gset string) (st : tarjan_state) : Prop :=
  dom (lowlink st) = dom (index st)
  ∧ NoDup (stack st)
  ∧ on_stack st = list_to_set (stack st)
  ∧ (∀ w, w ∈ stack st → w ∈ dom (index st))
  ∧ dom (index st) ⊆ U.

(** The nodes that have no index yet. *)
Definition unvisited (U : gset string) (st : tarjan_state) : nat :=
  size (U ∖ dom (index st)).

(** What a call [strongconnect(v)] does to the state. *)
Definition grows (U : gset string) (st : tarjan_state) (v : string)
    (st' : tarjan_state) : Prop :=
  inv U st' ∧ dom (index st) ⊆ dom (index st') ∧ v ∈ dom (index st')
  ∧ ∃ extra, stack st' = extra ++ stack st.

(** Every name of the adjacency dictionary, keys and successors. *)
Definition graph_names (graph : list (string * list string)) : list string :=
  flat_map (fun kv => kv.1 :: kv.2) graph.

(** A recorded cycle of two nodes or more. *)
Definition long (c : list string) : Prop := 2 ≤ length c.

End TarjanSpec.

(** ** Paths of the stored graph and failing queries *)

Module GraphSpec.
Import Store Analyzer.

(** [chain cur p]: the edges of [p] follow one another from [cur]. *)
Fixpoint chain (cur : string) (p : list edge) : Prop :=
  match p with
  | [] => True
  | e :: p' => e.1 = cur ∧ chain e.2 p'
  end.

(** A walk: one edge or more of [es], each starting where the last
    one ended. *)
Definition walk (es : list edge) (start : string) (p : list edge) : Prop :=
  p ≠ [] ∧ chain start p ∧ ∀ e, e ∈ p → e ∈ es.

(** A trail: a walk that uses no edge twice, which is what a
    variable-length pattern matches. *)
Definition trail (es : list edge) (start : string) (p : list edge) : Prop :=
  walk es start p ∧ NoDup p.


(** The stored nodes of in-degree 0, the condition that the unused and
    the root categories share. *)
Definition in_degree_zero (db : graph_db) : list string :=
  filter (fun v => Cypher.in_degree db v = 0) (variables db).

(** The boolean order of [ORDER BY] read as a relation. *)
Definition ordered {A} (le : A → A → bool) (a b : A) : Prop := le a b = true.

(** A failing answer replaced by an empty one. *)
Definition quiet_response {A} (r : response A) : response A :=
  match r with
  | Raises => Records []
  | Records records => Records records
  end.

(** The answers with every failure among the seven metric queries
    replaced by an answer without records. *)
Definition quiet (a : answers) : answers :=
  {| a_total_variables := quiet_response (a_total_variables a);
     a_total_dependencies := quiet_response (a_total_dependencies a);
     a_most_dependent := quiet_response (a_most_dependent a);
     a_most_dependencies := quiet_response (a_most_dependencies a);
     a_isolated_variables := quiet_response (a_isolated_variables a);
     a_root_variables := quiet_response (a_root_variables a);
     a_leaf_variables := quiet_response (a_leaf_variables a);
     a_cycle_paths := a_cycle_paths a;
     a_edges := a_edges a |}.

Definition raises {A} (r : response A) : bool :=
  match r with Raises => true | Records _ => false end.

(** Whether one of the seven metric queries failed. *)
Definition raised (a : answers) : bool :=
  raises (a_total_variables a) || raises (a_total_dependencies a)
  || raises (a_most_dependent a) || raises (a_most_dependencies a)
  || raises (a_isolated_variables a) || raises (a_root_variables a)
  || raises (a_leaf_variables a).

(** A store whose fan-in leaderboard query fails. *)
Definition fan_in_fails (a : answers) : answers :=
  {| a_total_variables := a_total_variables a;
     a_total_dependencies := a_total_dependencies a;
     a_most_dependent := Raises;
     a_most_dependencies := a_most_dependencies a;
     a_isolated_variables := a_isolated_variables a;
     a_root_variables := a_root_variables a;
     a_leaf_variables := a_leaf_variables a;
     a_cycle_paths := a_cycle_paths a;
     a_edges := a_edges a |}.

(** The leaderboard order the specification asks for: larger counts
    first, equal counts by ascending name. *)
Definition count_then_name_le (a b : string * nat) : bool :=
  Nat.ltb b.2 a.2 || (Nat.eqb a.2 b.2 && String.leb a.1 b.1).

(** What holds of a leaderboard over the degree [deg] of the nodes
    [vs]: at most ten rows, larger counts first, each row a stored node
    with its degree, which is positive, and no node left out that has a
    larger degree than a node listed. *)
Definition top_ten (deg : string → nat) (vs : list string)
    (rows : list (string * nat)) : Prop :=
  length rows ≤ 10
  ∧ StronglySorted (fun a b : string * nat => b.2 ≤ a.2) rows
  ∧ (∀ r, r ∈ rows → r.1 ∈ vs ∧ r.2 = deg r.1 ∧ 0 < r.2)
  ∧ (∀ u, u ∈ vs → 0 < deg u → (u, deg u) ∉ rows →
          length rows = 10 ∧ ∀ r, r ∈ rows → deg u ≤ r.2).

(** [permitted deg vs rows]: [rows] is an answer that a leaderboard
    query permits over the stored nodes [vs] of degree [deg]: the first
    ten of the groups (node, count) of the nodes with a match, arranged
    in descending count.  The query names no second key, so the
    arrangement of groups of equal count is the store's. *)
Definition permitted (deg : string → nat) (vs : list string)
    (rows : list (string * nat)) : Prop :=
  ∃ groups,
    groups ≡ₚ map (fun v => (v, deg v)) (filter (fun v => 0 < deg v) vs)
    ∧ StronglySorted (fun a b : string * nat => b.2 ≤ a.2) groups
    ∧ rows = take 10 groups.

(** A store that answers the fan-in leaderboard query with [rows]. *)
Definition fan_in_answers (a : answers) (rows : list (string * nat))
    : answers :=
  {| a_total_variables := a_total_variables a;
     a_total_dependencies := a_total_dependencies a;
     a_most_dependent := leaderboard_records rows;
     a_most_dependencies := a_most_dependencies a;
     a_isolated_variables := a_isolated_variables a;
     a_root_variables := a_root_variables a;
     a_leaf_variables := a_leaf_variables a;
     a_cycle_paths := a_cycle_paths a;
     a_edges := a_edges a |}.

Fixpoint sorted_by {A} (le : A → A → bool) (l : list A) : bool :=
  match l with
  | [] => true
  | x :: l' => forallb (le x) l' && sorted_by le l'
  end.

End GraphSpec.

(** ** Sample inputs *)

Module Samples.
Import Parser.

(** [counter += base_rate], line 26 of [test_vars.py]. *)
Definition counter_stmt : stmt :=
  AugAssign (Name "counter" Store 26) (Name "base_rate" Load 26) 26.

(** [obj.total, (lo, hi) = base, rate]: an attribute and a nested tuple
    as elements of a tuple target. *)
Definition mixed_tuple_stmt : stmt :=
  Assign [Tuple [OtherExpr [Name "obj" Load 3];
                 Tuple [Name "lo" Store 3; Name "hi" Store 3] Store 3] Store 3]
         (Tuple [Name "base" Load 3; Name "rate" Load 3] Load 3) 3.

(** A stack that allows 400 nested calls, more than the sample files
    and graphs below need. *)
Definition stack : nat := 400.

(** What loading a file into an empty database leaves there. *)
Definition loaded (src : source) (path : string) : Store.graph_db :=
  match Loader.load_from_file stack Store.empty_db src path with
  | inr (db, _) => db
  | inl _ => Store.empty_db
  end.

(** [v += 1]: the graph with the single edge (v, v). *)
Definition self_loop_db : Store.graph_db :=
  loaded (Module_ [AugAssign (Name "v" Store 1) (OtherExpr []) 1]) "loop.py".

(** [a = b + c] then [b = c]: the edges a -> b, a -> c and b -> c. *)
Definition shortcut_db : Store.graph_db :=
  loaded
    (Module_ [Assign [Name "a" Store 1]
                (OtherExpr [Name "b" Load 1; Name "c" Load 1]) 1;
              Assign [Name "b" Store 2] (Name "c" Load 2) 2]) "short.py".

(** [a = c + b]: the edges a -> c and a -> b, stored in that order. *)
Definition tie_db : Store.graph_db :=
  loaded
    (Module_ [Assign [Name "a" Store 1]
                (OtherExpr [Name "c" Load 1; Name "b" Load 1]) 1]) "tie.py".

(** [a = b + c]: the same two edges, stored in the other order. *)
Definition tie_db' : Store.graph_db :=
  loaded
    (Module_ [Assign [Name "a" Store 1]
                (OtherExpr [Name "b" Load 1; Name "c" Load 1]) 1]) "tie.py".

(** [x = y] then [y = x]: a cycle through both. *)
Definition two_cycle_db : Store.graph_db :=
  loaded
    (Module_ [Assign [Name "x" Store 1] (Name "y" Load 1) 1;
              Assign [Name "y" Store 2] (Name "x" Load 2) 2]) "cycle.py".

End Samples.

(** ** More vocabulary: what the finder, the loader and the reports keep *)

Module MoreSpec.
Import Parser Store Cypher.

(** What holds of a finder at every point of a visit: both ends of
    every dependency are in [all_variables], its first end has a
    recorded location and its file is the finder's, and so has the
    target being assigned, if there is one. *)
Definition finder_ok (st : finder) : Prop :=
  (∀ d, d ∈ dependencies st →
        d.1.1.1 ∈ all_variables st ∧ d.1.1.2 ∈ all_variables st
        ∧ is_Some (variable_locations st !! d.1.1.1)
        ∧ d.2 = filepath st)
  ∧ (∀ x, current_assign_target st = Some x →
          x ∈ all_variables st ∧ is_Some (variable_locations st !! x)).


(** Whether [find_variable_deps] returns for the file: it parses and
    the visit stays within the stack. *)
Definition parses (limit : nat) (f : string * source) : bool :=
  match find_variable_deps limit f.2 f.1 with
  | inr _ => true
  | inl _ => false
  end.

(** How many dependencies [find_variable_deps] finds in a file, 0 when
    it raises. *)
Definition found (limit : nat) (f : string * source) : nat :=
  match find_variable_deps limit f.2 f.1 with
  | inr deps => length deps
  | inl _ => 0
  end.

(** One turn of the loop of [load_from_directory]. *)
Definition directory_step (limit : nat) (acc : graph_db * nat)
    (f : string * source) : graph_db * nat :=
  match Loader.load_from_file limit acc.1 f.2 f.1 with
  | inl _ => acc
  | inr (db', count) => (db', acc.2 + count)
  end.

(** Every stored variable is an end of some stored relationship. *)
Definition no_orphans (db : graph_db) : Prop :=
  ∀ v, v ∈ variables db →
       ∃ r, r ∈ depends_on db ∧ (from_name r = v ∨ to_name r = v).

(** What Tarjan's pass keeps of the recorded components and the stack:
    no node is in two of them or twice in one, and each has an index. *)
Definition apart (st : Analyzer.tarjan_state) : Prop :=
  NoDup (concat (Analyzer.cycles st) ++ Analyzer.stack st)
  ∧ ∀ v, v ∈ concat (Analyzer.cycles st) ++ Analyzer.stack st →
         v ∈ dom (Analyzer.index st).

(** The names at the ends of a list of edges. *)
Definition endpoint_names (es : list edge) : list string :=
  flat_map (fun e => [e.1; e.2]) es.



(** The value a [depths] dictionary holds for a key. *)
Definition dict_get {V} (k : string) (d : list (string * V)) : option V :=
  snd <$> List.find (fun kv => bool_decide (kv.1 = k)) d.

End MoreSpec.

(** * Properties of the extractor *)

Module ParserFacts.
Import Parser ParserSpec.

Lemma expr_nested_ind (P : expr → Prop) :
  (∀ id ctx lineno, P (Name id ctx lineno)) →
  (∀ elts ctx lineno, Forall P elts → P (Tuple elts ctx lineno)) →
  (∀ fields, Forall P fields → P (OtherExpr fields)) →
  ∀ e, P e.
Proof.
  intros HN HT HO. fix IH 1. intros [id c l|elts c l|fields].
  - apply HN.
  - apply HT. induction elts as [|e elts IHl]; constructor; [apply IH|apply IHl].
  - apply HO. induction fields as [|e fs IHl]; constructor; [apply IH|apply IHl].
Qed.

Lemma stmt_nested_ind (P : stmt → Prop) :
  (∀ targets value lineno, P (Assign targets value lineno)) →
  (∀ target value lineno, P (AugAssign target value lineno)) →
  (∀ children, (∀ s, In (inr s) children → P s) → P (OtherStmt children)) →
  ∀ s, P s.
Proof.
  intros HA HG HO. fix IH 1. intros [ts v l|t v l|children].
  - apply HA.
  - apply HG.
  - apply HO. induction children as [|c cs IHl]; intros s Hin.
    + destruct Hin.
    + destruct c as [e|s']; destruct Hin as [Heq|Hin];
        try discriminate; try (by apply IHl).
      injection Heq as <-. apply IH.
Qed.

Lemma appends_refl st : appends st st [].
Proof. split; [by rewrite app_nil_r|done]. Qed.

Lemma appends_trans st1 st2 st3 n1 n2 :
  appends st1 st2 n1 → appends st2 st3 n2 → appends st1 st3 (n1 ++ n2).
Proof.
  intros (H1 & H2 & H3) (H4 & H5 & H6). split; [|split]; try congruence.
  by rewrite H4, H1, app_assoc.
Qed.

Lemma visit_Name_off id ctx lineno st :
  truthy (current_assign_target st) = None → visit_Name id ctx lineno st = st.
Proof. unfold visit_Name. by intros ->. Qed.

Lemma visit_expr_off e :
  ∀ st, truthy (current_assign_target st) = None → visit_expr e st = st.
Proof.
  induction e as [id c l|elts c l IH|fields IH] using expr_nested_ind;
    intros st Hoff; simpl.
  - by apply visit_Name_off.
  - induction IH as [|e es He _ IHes]; simpl; [done|]. by rewrite He.
  - induction IH as [|e es He _ IHes]; simpl; [done|]. by rewrite He.
Qed.

Lemma visit_list_on (es : list expr) x :
  Forall (fun e => ∀ st, truthy (current_assign_target st) = Some x →
                    appends st (visit_expr e st) (edges_to x (filepath st) e)) es →
  ∀ st, truthy (current_assign_target st) = Some x →
    appends st (fold_left (fun s e => visit_expr e s) es st)
      (map (fun nl => (x, nl.1, nl.2, filepath st)) (flat_map loads es)).
Proof.
  induction 1 as [|e es He _ IHes]; intros st Hon; simpl.
  - apply appends_refl.
  - rewrite map_app. specialize (He st Hon).
    eapply appends_trans; [exact He|].
    destruct He as (_ & Ht & Hf). rewrite <- Hf. apply IHes. by rewrite Ht.
Qed.

Lemma visit_expr_on e x :
  ∀ st, truthy (current_assign_target st) = Some x →
    appends st (visit_expr e st) (edges_to x (filepath st) e).
Proof.
  induction e as [id c l|elts c l IH|fields IH] using expr_nested_ind;
    intros st Hon.
  - unfold edges_to; simpl. unfold visit_Name. rewrite Hon.
    destruct (is_load c); simpl; [done|apply appends_refl].
  - by apply visit_list_on.
  - by apply visit_list_on.
Qed.

Lemma truthy_Some id : id ≠ "" → truthy (Some id) = Some id.
Proof. intros Hne. simpl. by destruct (decide (id = "")). Qed.

Lemma bind_and_visit_spec id lineno value st :
  appends (set_target None st) (bind_and_visit id lineno value st)
    (target_deps (filepath st) (Name id Store 0) value).
Proof.
  unfold bind_and_visit, target_deps.
  set (st1 := _record_location _ _ _).
  destruct (decide (id = "")) as [->|Hne].
  - rewrite visit_expr_off by done. split; [by rewrite app_nil_r|done].
  - destruct (visit_expr_on value id st1 (truthy_Some id Hne)) as (Hd & _ & Hf).
    split; [exact Hd|split; [done|exact Hf]].
Qed.

Lemma visit_target_elt_spec lineno t v st :
  current_assign_target st = None →
  appends st (visit_target_elt lineno t v st) (target_deps (filepath st) t v).
Proof.
  intros Hoff. destruct t as [id c l|elts c l|fields]; simpl;
    try apply appends_refl.
  destruct (bind_and_visit_spec id lineno v st) as (Hd & Ht & Hf).
  split; [exact Hd|split; [|exact Hf]]. by rewrite Ht, Hoff.
Qed.

Lemma visit_pairs_spec lineno (pairs : list (expr * expr)) :
  ∀ st, current_assign_target st = None →
    appends st
      (fold_left (fun s tv => visit_target_elt lineno tv.1 tv.2 s) pairs st)
      (flat_map (fun tv => target_deps (filepath st) tv.1 tv.2) pairs).
Proof.
  induction pairs as [|[t v] pairs IH]; intros st Hoff; simpl.
  - apply appends_refl.
  - pose proof (visit_target_elt_spec lineno t v st Hoff) as He.
    eapply appends_trans; [exact He|].
    destruct He as (_ & Ht & Hf). rewrite <- Hf. apply IH. by rewrite Ht.
Qed.

Lemma visit_targets_spec lineno value (telts : list expr) :
  ∀ st, current_assign_target st = None →
    appends st
      (fold_left (fun s t => visit_target_elt lineno t value s) telts st)
      (flat_map (fun t => target_deps (filepath st) t value) telts).
Proof.
  induction telts as [|t telts IH]; intros st Hoff; simpl.
  - apply appends_refl.
  - pose proof (visit_target_elt_spec lineno t value st Hoff) as He.
    eapply appends_trans; [exact He|].
    destruct He as (_ & Ht & Hf). rewrite <- Hf. apply IH. by rewrite Ht.
Qed.

Lemma appends_set_line lineno st : appends st (set_line lineno st) [].
Proof. split; [by rewrite app_nil_r|done]. Qed.

Lemma visit_Assign_spec targets value lineno st :
  current_assign_target st = None →
  appends st (visit_Assign targets value lineno st)
    (stmt_deps (filepath st) (Assign targets value lineno)).
Proof.
  intros Hoff. unfold visit_Assign.
  pose proof (appends_set_line lineno st) as Hl.
  assert (Hoff' : current_assign_target (set_line lineno st) = None) by done.
  destruct targets as [|[id c l|telts c l|fields] [|t' ts]]; try exact Hl.
  - apply (appends_trans _ _ _ _ _ Hl).
    apply (visit_target_elt_spec lineno (Name id c l) value _ Hoff').
  - apply (appends_trans _ _ _ _ _ Hl).
    destruct value as [vid vc vl|velts vc vl|vfields].
    + apply (visit_targets_spec lineno _ telts _ Hoff').
    + apply (visit_pairs_spec lineno (zip telts velts) _ Hoff').
    + apply (visit_targets_spec lineno _ telts _ Hoff').
Qed.

Lemma visit_AugAssign_spec target value lineno st :
  current_assign_target st = None →
  appends st (visit_AugAssign target value lineno st)
    (stmt_deps (filepath st) (AugAssign target value lineno)).
Proof.
  intros Hoff. unfold visit_AugAssign.
  destruct target as [x c l|telts c l|fields]; try apply appends_set_line.
  simpl stmt_deps. unfold target_deps.
  set (st1 := append_dep _ _).
  destruct (decide (x = "")) as [->|Hne].
  - rewrite visit_expr_off by done. split; [done|]. by rewrite Hoff.
  - destruct (visit_expr_on value x (set_target (Some x) st1) (truthy_Some x Hne))
      as (Hd & _ & Hf).
    split; [|split; [by rewrite Hoff|exact Hf]].
    simpl. simpl in Hd. rewrite Hd. by rewrite <- app_assoc.
Qed.

Lemma visit_stmt_spec s :
  ∀ st, current_assign_target st = None →
    appends st (visit_stmt s st) (stmt_deps (filepath st) s).
Proof.
  induction s as [ts v l|t v l|children IH] using stmt_nested_ind; intros st Hoff.
  - by apply visit_Assign_spec.
  - by apply visit_AugAssign_spec.
  - simpl. revert st Hoff.
    induction children as [|c cs IHcs]; intros st Hoff; simpl.
    + apply appends_refl.
    + assert (Hc : appends st
                (match c with inl e => visit_expr e st | inr s' => visit_stmt s' st end)
                (match c with inl _ => [] | inr s' => stmt_deps (filepath st) s' end)).
      { destruct c as [e|s'].
        - rewrite visit_expr_off by by rewrite Hoff. apply appends_refl.
        - apply IH; [by left|done]. }
      eapply appends_trans; [exact Hc|].
      destruct Hc as (_ & Ht & Hf). rewrite <- Hf.
      apply IHcs; [|by rewrite Ht]. intros s Hin. apply IH. by right.
Qed.

Lemma visit_Module_spec body :
  ∀ st, current_assign_target st = None →
    appends st (visit_Module body st) (flat_map (stmt_deps (filepath st)) body).
Proof.
  unfold visit_Module.
  induction body as [|s body IH]; intros st Hoff; simpl.
  - apply appends_refl.
  - pose proof (visit_stmt_spec s st Hoff) as Hs.
    eapply appends_trans; [exact Hs|].
    destruct Hs as (_ & Ht & Hf). rewrite <- Hf. apply IH. by rewrite Ht.
Qed.

(** *** The de-duplication loop *)

Lemma unique_step_keep_first deps :
  ∀ (seen : gset (string * string)) (seen' : list (string * string)) acc,
    (∀ k, k ∈ seen ↔ k ∈ seen') →
    (fold_left unique_step deps (seen, acc)).2 = acc ++ keep_first seen' deps.
Proof.
  induction deps as [|d deps IH]; intros seen seen' acc Hs; simpl.
  - by rewrite app_nil_r.
  - unfold unique_step at 2; simpl.
    destruct (decide (dep_key d ∈ seen)) as [Hin|Hout];
      destruct (decide (dep_key d ∈ seen')) as [Hin'|Hout'];
      try (exfalso; by (apply Hout', Hs || apply Hout, Hs)).
    + by apply IH.
    + rewrite (IH _ (dep_key d :: seen')), <- app_assoc; [done|].
      intros k. rewrite elem_of_union, elem_of_singleton, elem_of_cons, Hs. done.
Qed.

Lemma unique_deps_keep_first deps : unique_deps deps = keep_first [] deps.
Proof.
  unfold unique_deps. rewrite (unique_step_keep_first deps ∅ [] []); [done|].
  intros k. rewrite elem_of_nil. set_solver.
Qed.

Lemma keep_first_keys deps :
  ∀ seen k, k ∈ map dep_key (keep_first seen deps)
            ↔ k ∈ map dep_key deps ∧ k ∉ seen.
Proof.
  induction deps as [|d deps IH]; intros seen k; simpl.
  - rewrite elem_of_nil. tauto.
  - destruct (decide (dep_key d ∈ seen)) as [Hin|Hout]; simpl.
    + rewrite IH, elem_of_cons. split; [tauto|].
      intros [[->|?] ?]; tauto.
    + rewrite !elem_of_cons, IH, elem_of_cons.
      destruct (decide (k = dep_key d)) as [->|Hne]; [tauto|]. tauto.
Qed.

Lemma keep_first_NoDup deps :
  ∀ seen, NoDup (map dep_key (keep_first seen deps)).
Proof.
  induction deps as [|d deps IH]; intros seen; simpl.
  - constructor.
  - destruct (decide (dep_key d ∈ seen)); simpl; [apply IH|].
    constructor; [|apply IH].
    rewrite keep_first_keys, elem_of_cons. tauto.
Qed.


Lemma count_key_absent k deps :
  k ∉ map dep_key deps → count_key k deps = 0.
Proof.
  unfold count_key. induction deps as [|d deps IH]; simpl; intros Hk; [done|].
  rewrite elem_of_cons in Hk. rewrite filter_cons_False by naive_solver.
  apply IH. tauto.
Qed.

Lemma count_key_once k deps :
  NoDup (map dep_key deps) → k ∈ map dep_key deps → count_key k deps = 1.
Proof.
  unfold count_key.
  induction deps as [|d deps IH]; simpl; intros Hnd Hin.
  - by apply elem_of_nil in Hin.
  - apply NoDup_cons in Hnd as [Hd Hnd].
    rewrite filter_cons. destruct (decide (dep_key d = k)) as [<-|Hne]; simpl.
    + f_equal. by apply count_key_absent.
    + apply IH; [done|]. apply elem_of_cons in Hin as [->|?]; [done|done].
Qed.

Lemma occurs_stmt_deps path s0 s d :
  occurs s0 s → d ∈ stmt_deps path s0 → d ∈ stmt_deps path s.
Proof.
  induction 1 as [|children s Hin _ IH]; [done|]. intros Hd. simpl.
  apply list_elem_of_In, in_flat_map. exists (inr s).
  split; [done|]. by apply list_elem_of_In, IH.
Qed.

(** What the visit of a file collects, once de-duplicated. *)
Lemma unique_deps_module body path :
  unique_deps (dependencies (visit_Module body (init path)))
  = keep_first [] (flat_map (stmt_deps path) body).
Proof.
  destruct (visit_Module_spec body (init path) eq_refl) as (Hd & _).
  rewrite Hd. simpl. apply unique_deps_keep_first.
Qed.

Lemma find_variable_deps_module limit body path :
  find_variable_deps limit (Module_ body) path
  = if Nat.leb (Module_depth body) limit
    then inr (keep_first [] (flat_map (stmt_deps path) body))
    else inl ParsingError.
Proof. unfold find_variable_deps. by rewrite unique_deps_module. Qed.

(** A result returned is the one of the completed visit. *)
Lemma find_variable_deps_returned limit body path out :
  find_variable_deps limit (Module_ body) path = inr out →
  Module_depth body ≤ limit
  ∧ out = keep_first [] (flat_map (stmt_deps path) body).
Proof.
  rewrite find_variable_deps_module.
  destruct (Nat.leb_spec (Module_depth body) limit); [|done].
  intros Heq. injection Heq as <-. done.
Qed.

(** The visit completes on a stack that is deep enough. *)
Lemma find_variable_deps_fits limit body path :
  Module_depth body ≤ limit →
  find_variable_deps limit (Module_ body) path
  = inr (keep_first [] (flat_map (stmt_deps path) body)).
Proof.
  intros Hfit. rewrite find_variable_deps_module.
  by apply Nat.leb_le in Hfit as ->.
Qed.


Lemma flat_map_filter {A B} (f : A → list B) (P : A → bool) (l : list A) :
  (∀ x, P x = false → f x = []) →
  flat_map f (filter (fun x => P x) l) = flat_map f l.
Proof.
  intros Hf. induction l as [|x l IH]; simpl; [done|].
  rewrite filter_cons. destruct (P x) eqn:HP; simpl.
  - by rewrite IH.
  - by rewrite IH, (Hf x HP).
Qed.

Lemma flat_map_map {A B C} (f : B → list C) (g : A → B) (l : list A) :
  flat_map f (map g l) = flat_map (fun x => f (g x)) l.
Proof. induction l as [|x l IH]; simpl; [done|]. by rewrite IH. Qed.

End ParserFacts.

(** * The extractor: claims *)

Section ExtractorClaims.
Import Parser ParserSpec ParserFacts.



(** C10.  An assignment whose single target is neither a name nor a
    tuple changes nothing but the current line, so none of the names
    read on its right-hand side becomes a dependency, and a file made
    of such assignments yields no dependency at all, however deep the
    right-hand sides nest, on a stack that allows the visit of the
    module and of a statement; for a tuple
    target, the elements that are not names can be left out of the
    (target, value) pairs without changing what is appended. *)
Theorem assign_other_targets_emit_nothing :
  (∀ fields value lineno st,
     visit_Assign [OtherExpr fields] value lineno st = set_line lineno st
     ∧ dependencies (visit_Assign [OtherExpr fields] value lineno st)
       = dependencies st)
  ∧ (∀ limit body path,
       Forall (fun s => ∃ fields value lineno,
                          s = Assign [OtherExpr fields] value lineno) body →
       2 ≤ limit →
       find_variable_deps limit (Module_ body) path = inr [])
  ∧ (∀ telts c l value lineno st,
       current_assign_target st = None →
       dependencies (visit_Assign [Tuple telts c l] value lineno st)
       = dependencies st
         ++ flat_map (fun tv => target_deps (filepath st) tv.1 tv.2)
              (filter (fun tv => is_name tv.1) (target_pairs telts value))).
Proof.
  split; [|split].
  - intros fields value lineno st. by split.
  - intros limit body path Hall Hlimit. rewrite find_variable_deps_fits.
    + replace (flat_map (stmt_deps path) body) with (@nil dep); [done|].
      induction Hall as [|s body (fs & v & ln & ->) _ IH]; simpl; [done|exact IH].
    + unfold Module_depth.
      assert (max_list (map stmt_depth body) ≤ 1); [|lia].
      induction Hall as [|s body (fs & v & ln & ->) _ IH]; [simpl; lia|].
      change (1 `max` max_list (map stmt_depth body) ≤ 1). lia.
  - intros telts c l value lineno st Hoff.
    destruct (visit_Assign_spec [Tuple telts c l] value lineno st Hoff) as (Hd & _).
    rewrite Hd. f_equal.
    rewrite (flat_map_filter _ (fun tv => is_name tv.1)).
    + destruct value as [vid vc vl|velts vc vl|vfields]; simpl;
        by rewrite ?flat_map_map.
    + intros [[id ? ?| |] v]; simpl; done.
Qed.

Lemma assign_other_targets_emit_nothing_witness :
  dependencies (visit_stmt Samples.mixed_tuple_stmt (init "m.py")) = [].
Proof.
  destruct assign_other_targets_emit_nothing as (_ & _ & H).
  exact (H _ Store 3 _ 3 (init "m.py") eq_refl).
Defined.

End ExtractorClaims.

(** * Properties of the loader *)

Module LoaderFacts.
Import Store Loader LoaderSpec.

Lemma merge_variable_in n vs : n ∈ merge_variable n vs.
Proof.
  unfold merge_variable. destruct (decide (n ∈ vs)); [done|].
  apply elem_of_app. right. by apply list_elem_of_singleton.
Qed.

Lemma merge_variable_mono n m vs : m ∈ vs → m ∈ merge_variable n vs.
Proof.
  unfold merge_variable. destruct (decide (n ∈ vs)); [done|].
  intros. apply elem_of_app. by left.
Qed.


Lemma merge_depends_on_in r rs :
  endpoints r ∈ map endpoints (merge_depends_on r rs).
Proof.
  unfold merge_depends_on. destruct (decide _); [done|].
  rewrite map_app. apply elem_of_app. right. simpl. by apply list_elem_of_singleton.
Qed.









(** First write wins. *)
Lemma find_rel_app k rs rs' :
  find_rel k (rs ++ rs')
  = match find_rel k rs with Some r => Some r | None => find_rel k rs' end.
Proof.
  unfold find_rel. induction rs as [|r rs IH]; simpl; [done|].
  by destruct (bool_decide (endpoints r = k)).
Qed.

Lemma find_rel_None k rs : find_rel k rs = None ↔ k ∉ map endpoints rs.
Proof.
  unfold find_rel. induction rs as [|r rs IH]; simpl.
  - split; [intros _; apply not_elem_of_nil|done].
  - rewrite not_elem_of_cons. destruct (bool_decide (endpoints r = k)) eqn:Hd.
    + apply bool_decide_eq_true_1 in Hd. split; [done|]. intros [Hne _]. by destruct Hne.
    + apply bool_decide_eq_false_1 in Hd. rewrite IH. split; [|tauto].
      intros. split; [congruence|done].
Qed.

Lemma find_rel_merge k r rs :
  find_rel k (merge_depends_on r rs) = find_rel k (rs ++ [r]).
Proof.
  unfold merge_depends_on. destruct (decide _) as [Hin|Hout]; [|done].
  rewrite find_rel_app. destruct (find_rel k rs) eqn:Hf; [done|].
  apply find_rel_None in Hf. simpl.
  rewrite bool_decide_eq_false_2; [done|]. by intros <-.
Qed.

Lemma find_rel_fold k rows :
  ∀ db, find_rel k (depends_on (fold_left merge_row rows db))
        = find_rel k (depends_on db ++ rows).
Proof.
  induction rows as [|r rows IH]; intros db; simpl.
  - by rewrite app_nil_r.
  - rewrite IH. simpl. rewrite !find_rel_app, find_rel_merge, find_rel_app. simpl.
    destruct (find_rel k (depends_on db)); [done|].
    by destruct (bool_decide (endpoints r = k)).
Qed.

(** *** One relationship per ordered pair *)

Lemma merge_variable_NoDup n vs : NoDup vs → NoDup (merge_variable n vs).
Proof.
  unfold merge_variable. destruct (decide (n ∈ vs)); [done|]. intros Hnd.
  apply NoDup_app. split; [done|]. split; [|apply NoDup_singleton].
  intros x Hx Hx'. apply list_elem_of_singleton in Hx'. by subst.
Qed.

Lemma merge_row_well_formed db row :
  well_formed db → well_formed (merge_row db row).
Proof.
  intros (Hv & Hr & He). split; [|split]; simpl.
  - by do 2 apply merge_variable_NoDup.
  - unfold merge_depends_on. destruct (decide _) as [|Hout]; [done|].
    rewrite map_app. apply NoDup_app. split; [done|]. split; [|apply NoDup_singleton].
    intros x Hx Hx'. apply list_elem_of_singleton in Hx'. by subst.
  - intros r Hin. unfold merge_depends_on in Hin.
    assert (Hold : r ∈ depends_on db →
                   from_name r ∈ merge_variable (to_name row)
                                   (merge_variable (from_name row) (variables db))
                   ∧ to_name r ∈ merge_variable (to_name row)
                                   (merge_variable (from_name row) (variables db))).
    { intros Hr'. destruct (He r Hr'). split; by do 2 apply merge_variable_mono. }
    destruct (decide _); [by apply Hold|].
    apply elem_of_app in Hin as [Hin|Hin]; [by apply Hold|].
    apply list_elem_of_singleton in Hin as ->. split.
    + apply merge_variable_mono, merge_variable_in.
    + apply merge_variable_in.
Qed.

Lemma batch_well_formed relationships :
  ∀ db, well_formed db → well_formed (_batch_create_relationships db relationships).
Proof.
  unfold _batch_create_relationships.
  induction (map rel_of_dep relationships) as [|r rows IH]; intros db Hwf; simpl.
  - done.
  - by apply IH, merge_row_well_formed.
Qed.

Lemma empty_well_formed : well_formed empty_db.
Proof.
  split; [constructor|split; [constructor|]]. intros r Hr. by apply elem_of_nil in Hr.
Qed.

Lemma loaded_well_formed src path : well_formed (Samples.loaded src path).
Proof.
  unfold Samples.loaded, load_from_file.
  destruct (Parser.find_variable_deps Samples.stack src path) as [e|[|d deps]];
    try apply empty_well_formed.
  apply batch_well_formed, empty_well_formed.
Qed.

(** *** Which relationship is stored for a pair *)





End LoaderFacts.

Section LoaderClaims.
Import Parser ParserSpec ParserFacts Store Loader LoaderSpec LoaderFacts.



End LoaderClaims.

(** * Tarjan's algorithm returns on a stack as deep as the graph has names *)

Module TarjanFacts.
Import Analyzer TarjanSpec.

Section Totality.
Variable graph : list (string * list string).
Variable U : gset string.
Hypothesis graph_closed : ∀ v w, w ∈ graph_get graph v → w ∈ U.

Abbreviation inv := (TarjanSpec.inv U).
Abbreviation unvisited := (TarjanSpec.unvisited U).
Abbreviation grows := (TarjanSpec.grows U).

Lemma unvisited_mono st st' :
  dom (index st) ⊆ dom (index st') → unvisited st' ≤ unvisited st.
Proof. intros Hsub. unfold unvisited. apply (subseteq_size (C:=gset string)). set_solver. Qed.

Lemma enter_inv v st :
  inv st → v ∈ U → index st !! v = None →
  inv (enter v st) ∧ unvisited (enter v st) < unvisited st.
Proof.
  intros (Hl & Hnd & Hon & Hst & HU) Hv Hnone.
  assert (Hv' : v ∉ dom (index st)) by by apply not_elem_of_dom.
  split.
  - unfold inv; simpl. rewrite !dom_insert_L. split; [by rewrite Hl|].
    split; [constructor; [|done]; intros Hin; by apply Hv', Hst|].
    split; [by rewrite Hon|]. split; [|set_solver].
    intros w Hw. apply elem_of_cons in Hw as [->|Hw]; [set_solver|].
    apply elem_of_union. right. by apply Hst.
  - unfold unvisited; simpl. rewrite dom_insert_L. apply (subset_size (C:=gset string)).
    set_solver.
Qed.

Lemma set_lowlink_inv v n st :
  inv st → v ∈ dom (index st) → inv (set_lowlink v n st).
Proof.
  intros (Hl & Hnd & Hon & Hst & HU) Hv. unfold inv; simpl.
  rewrite dom_insert_L. split; [set_solver|done].
Qed.

Lemma pop_component_spec v rest extra :
  ∀ component ons,
    NoDup (extra ++ v :: rest) → ons = list_to_set (extra ++ v :: rest) →
    pop_component v (extra ++ v :: rest) ons component
    = Some (rest, list_to_set rest, component ++ extra ++ [v]).
Proof.
  induction extra as [|w extra IH]; intros component ons Hnd ->; simpl.
  - apply NoDup_cons in Hnd as [Hv Hnd].
    rewrite decide_True by set_solver. rewrite decide_True by done.
    do 3 f_equal. apply set_eq. intros x.
    rewrite elem_of_difference, elem_of_union, elem_of_singleton, !elem_of_list_to_set.
    split; [tauto|]. intros Hx. split; [tauto|]. by intros ->.
  - apply NoDup_cons in Hnd as [Hw Hnd].
    rewrite decide_True by set_solver.
    rewrite decide_False by (intros ->; apply Hw, elem_of_app; right; by left).
    rewrite (IH (component ++ [w]) _ Hnd).
    + by rewrite <- !app_assoc.
    + apply set_eq. intros x.
      rewrite elem_of_difference, elem_of_union, elem_of_singleton, !elem_of_list_to_set.
      split; [tauto|]. intros Hx. split; [tauto|]. by intros ->.
Qed.

Lemma close_component_total v st extra base :
  inv st → v ∈ dom (index st) → stack st = extra ++ v :: base →
  ∃ st' extra', close_component v st = Some st' ∧ inv st'
                ∧ dom (index st') = dom (index st)
                ∧ stack st' = extra' ++ base.
Proof.
  intros Hinv Hv Hstack. pose proof Hinv as (Hl & Hnd & Hon & Hst & HU).
  unfold close_component.
  assert (is_Some (lowlink st !! v)) as [lv ->] by (apply elem_of_dom; by rewrite Hl).
  apply elem_of_dom in Hv as [iv Hiv]. rewrite Hiv. simpl.
  destruct (decide (lv = iv)) as [_|_].
  - rewrite Hstack in Hnd, Hon |- *.
    rewrite (pop_component_spec v base extra [] _ Hnd Hon). simpl.
    eexists _, []. split; [done|]. split; [|done].
    unfold inv; simpl. split; [done|].
    split; [apply NoDup_app in Hnd as (_ & _ & Hnd); by apply NoDup_cons in Hnd as [_ ?]|].
    split; [done|]. split; [|done].
    intros w Hw. apply Hst. rewrite Hstack. apply elem_of_app. right. by right.
  - exists st, (extra ++ [v]). split; [done|]. split; [done|]. split; [done|].
    by rewrite <- app_assoc.
Qed.

Lemma each_successor_total call v limit :
  (∀ w s, inv s → w ∈ U → index s !! w = None → unvisited s ≤ limit →
          ∃ s', call w s = Some s' ∧ grows s w s') →
  ∀ ws s extra base,
    inv s → v ∈ dom (index s) → (∀ w, w ∈ ws → w ∈ U) → unvisited s ≤ limit →
    stack s = extra ++ v :: base →
    ∃ s' extra', each_successor call v ws s = Some s' ∧ inv s'
                 ∧ dom (index s) ⊆ dom (index s')
                 ∧ stack s' = extra' ++ v :: base.
Proof.
  intros Hcall. induction ws as [|w ws IH]; intros s extra base Hinv Hv Hws Hlimit Hstack.
  - exists s, extra. by split_and!.
  - simpl. assert (HwU : w ∈ U) by (apply Hws; by left).
    assert (Hws' : ∀ w', w' ∈ ws → w' ∈ U) by (intros; apply Hws; by right).
    assert (Hlv : ∀ s1, inv s1 → dom (index s) ⊆ dom (index s1) →
                        is_Some (lowlink s1 !! v)).
    { intros s1 (Hl1 & _) Hsub. apply elem_of_dom. rewrite Hl1. by apply Hsub. }
    destruct (index s !! w) as [iw|] eqn:Hiw.
    + destruct (decide (w ∈ on_stack s)).
      * destruct (Hlv s Hinv) as [lv ->]; [done|]. simpl.
        destruct (IH (set_lowlink v (lv `min` iw) s) extra base)
          as (s' & extra' & ? & ? & ? & ?); try done.
        { by apply set_lowlink_inv. }
        by exists s', extra'.
      * destruct (IH s extra base) as (s' & extra' & ? & ? & ? & ?); try done.
        by exists s', extra'.
    + destruct (Hcall w s Hinv HwU Hiw Hlimit)
        as (s1 & -> & Hinv1 & Hsub1 & Hw1 & extra1 & Hstack1). simpl.
      destruct (Hlv s1 Hinv1 Hsub1) as [lv ->]. simpl.
      assert (is_Some (lowlink s1 !! w)) as [lw ->].
      { apply elem_of_dom. destruct Hinv1 as (-> & _). done. }
      simpl.
      destruct (IH (set_lowlink v (lv `min` lw) s1) (extra1 ++ extra) base)
        as (s' & extra' & ? & ? & ? & ?); try done.
      { apply set_lowlink_inv; [done|by apply Hsub1]. }
      { simpl. by apply Hsub1. }
      { etrans; [|exact Hlimit]. by apply unvisited_mono. }
      { simpl. by rewrite Hstack1, Hstack, <- app_assoc. }
      exists s', extra'. split_and!; try done. etrans; [exact Hsub1|done].
Qed.

Lemma strongconnect_total limit :
  ∀ v st, inv st → v ∈ U → index st !! v = None → unvisited st ≤ limit →
          ∃ st', strongconnect limit graph v st = Some st' ∧ grows st v st'.
Proof.
  induction limit as [|limit IH]; intros v st Hinv Hv Hnone Hlimit.
  - exfalso. unfold unvisited in Hlimit.
    assert (Hempty : U ∖ dom (index st) ≡ ∅) by (apply (size_empty_inv (C:=gset string)); lia).
    apply not_elem_of_dom in Hnone. set_solver.
  - simpl. destruct (enter_inv v st Hinv Hv Hnone) as [Hinv0 Hlt].
    destruct (each_successor_total (strongconnect limit graph) v limit IH
                (graph_get graph v) (enter v st) [] (stack st))
      as (s1 & extra1 & -> & Hinv1 & Hsub1 & Hstack1); try done.
    { simpl. rewrite dom_insert_L. set_solver. }
    { intros w. apply graph_closed. }
    { lia. }
    simpl.
    destruct (close_component_total v s1 extra1 (stack st))
      as (s2 & extra2 & -> & Hinv2 & Hdom2 & Hstack2); try done.
    { apply Hsub1. simpl. rewrite dom_insert_L. set_solver. }
    exists s2. split; [done|]. split; [done|].
    rewrite Hdom2. simpl in Hsub1. rewrite dom_insert_L in Hsub1.
    split; [set_solver|]. split; [set_solver|]. by exists extra2.
Qed.

Lemma each_node_total limit nodes :
  ∀ st, inv st → (∀ v, v ∈ nodes → v ∈ U) → unvisited st ≤ limit →
        ∃ st', each_node limit graph nodes st = Some st' ∧ inv st'.
Proof.
  induction nodes as [|v nodes IH]; intros st Hinv Hnodes Hlimit; simpl.
  - by exists st.
  - assert (Hnodes' : ∀ v', v' ∈ nodes → v' ∈ U) by (intros; apply Hnodes; by right).
    destruct (index st !! v) eqn:Hv.
    + by apply IH.
    + destruct (strongconnect_total limit v st) as (st1 & -> & Hinv1 & Hsub1 & _);
        try done.
      { apply Hnodes. by left. }
      simpl. apply IH; try done. etrans; [|exact Hlimit]. by apply unvisited_mono.
Qed.

Lemma tarjan_init_inv : inv tarjan_init.
Proof.
  unfold inv; simpl. rewrite !dom_empty_L. split; [done|]. split; [constructor|].
  split; [done|]. split; [|set_solver]. intros w Hw. by apply elem_of_nil in Hw.
Qed.

End Totality.

Lemma graph_get_names graph v w :
  w ∈ graph_get graph v → w ∈ graph_names graph.
Proof.
  unfold graph_get, graph_names.
  induction graph as [|[k ws] graph IH]; simpl.
  - intros Hw. by apply elem_of_nil in Hw.
  - destruct (bool_decide (k = v)); simpl; intros Hw.
    + right. apply elem_of_app. by left.
    + right. apply elem_of_app. right. by apply IH.
Qed.

Lemma graph_keys_names graph v :
  v ∈ map fst graph → v ∈ graph_names graph.
Proof.
  unfold graph_names. induction graph as [|[k ws] graph IH]; simpl; [done|].
  intros Hv. apply elem_of_cons in Hv as [->|Hv]; [by left|].
  right. apply elem_of_app. right. by apply IH.
Qed.

Lemma graph_append_names k v graph :
  length (graph_names (graph_append k v graph)) ≤ 2 + length (graph_names graph).
Proof.
  unfold graph_names. induction graph as [|[k' ws] graph IH]; simpl; [lia|].
  destruct (decide (k' = k)); simpl; rewrite ?length_app; simpl; lia.
Qed.

Lemma build_graph_names records :
  length (graph_names (build_graph records)) ≤ 2 * length records.
Proof.
  unfold build_graph.
  assert (H : ∀ graph,
    length (graph_names (fold_left (fun g r => graph_append r.1 r.2 g) records graph))
    ≤ 2 * length records + length (graph_names graph)).
  { induction records as [|r records IH]; intros graph; simpl; [lia|].
    etrans; [apply IH|]. pose proof (graph_append_names r.1 r.2 graph). lia. }
  etrans; [apply H|]. simpl. lia.
Qed.

Lemma size_list_to_set_le (l : list string) :
  size (list_to_set l : gset string) ≤ length l.
Proof.
  induction l as [|x l IH].
  - change (size (∅ : gset string) ≤ 0). by rewrite size_empty.
  - change (size ({[x]} ∪ list_to_set l : gset string) ≤ S (length l)).
    rewrite size_union_alt, size_singleton.
    pose proof (subseteq_size (C:=gset string)
                  (list_to_set l ∖ {[x]}) (list_to_set l)) as Hle.
    assert (list_to_set l ∖ {[x]} ⊆ (list_to_set l : gset string)) by set_solver.
    specialize (Hle H). lia.
Qed.

(** On a stack that allows as many nested calls as the edges have
    ends, the pass returns. *)
Lemma tarjan_total limit records :
  2 * length records ≤ limit → is_Some (_tarjan_cycles limit records).
Proof.
  intros Hlimit. unfold _tarjan_cycles.
  set (graph := build_graph records).
  set (U := list_to_set (graph_names graph) : gset string).
  assert (Hclosed : ∀ v w, w ∈ graph_get graph v → w ∈ U).
  { intros v w Hw. apply elem_of_list_to_set. by eapply graph_get_names. }
  destruct (each_node_total graph U Hclosed limit
              (map fst graph) tarjan_init) as (st & Hst & _).
  - apply (tarjan_init_inv graph U Hclosed).
  - intros v Hv. apply elem_of_list_to_set. by apply graph_keys_names.
  - unfold unvisited.
    etrans; [apply (subseteq_size (C:=gset string) _ U); set_solver|].
    etrans; [apply size_list_to_set_le|].
    etrans; [apply build_graph_names|]. lia.
  - by rewrite Hst.
Qed.

(** *** A deeper stack changes no result *)

Lemma each_successor_mono (call call' : string → tarjan_state → option tarjan_state) v :
  (∀ w s s', call w s = Some s' → call' w s = Some s') →
  ∀ ws s s', each_successor call v ws s = Some s' →
             each_successor call' v ws s = Some s'.
Proof.
  intros Hcall. induction ws as [|w ws IH]; intros s s' Hs; simpl in *; [done|].
  destruct (index s !! w) as [iw|].
  - destruct (decide (w ∈ on_stack s)); [|by apply IH].
    destruct (lowlink s !! v) as [lv|]; [|done]. simpl in *. by apply IH.
  - destruct (call w s) as [s1|] eqn:Hs1; [|done].
    rewrite (Hcall w s s1 Hs1). simpl in *.
    destruct (lowlink s1 !! v) as [lv|]; [|done]. simpl in *.
    destruct (lowlink s1 !! w) as [lw|]; [|done]. simpl in *. by apply IH.
Qed.

Lemma strongconnect_mono graph limit :
  ∀ limit' v st st', limit ≤ limit' →
    strongconnect limit graph v st = Some st' →
    strongconnect limit' graph v st = Some st'.
Proof.
  induction limit as [|limit IH]; intros limit' v st st' Hle Hs; [done|].
  destruct limit' as [|limit']; [lia|]. simpl in *.
  destruct (each_successor (strongconnect limit graph) v _ _) as [s1|] eqn:Hs1;
    [|done].
  rewrite (each_successor_mono (strongconnect limit graph)
             (strongconnect limit' graph) v) with (s' := s1); [done| |done].
  intros w s s' Hw. apply (IH limit'); [lia|done].
Qed.

Lemma each_node_mono graph limit limit' nodes :
  limit ≤ limit' →
  ∀ st st', each_node limit graph nodes st = Some st' →
            each_node limit' graph nodes st = Some st'.
Proof.
  intros Hle. induction nodes as [|v nodes IH]; intros st st' Hs; simpl in *;
    [done|].
  destruct (index st !! v); [by apply IH|].
  destruct (strongconnect limit graph v st) as [s1|] eqn:Hs1; [|done].
  rewrite (strongconnect_mono graph limit limit' v st s1 Hle Hs1).
  simpl in *. by apply IH.
Qed.

Lemma tarjan_mono limit limit' records found :
  limit ≤ limit' →
  _tarjan_cycles limit records = Some found →
  _tarjan_cycles limit' records = Some found.
Proof.
  intros Hle. unfold _tarjan_cycles.
  destruct (each_node limit _ _ _) as [st|] eqn:Hst; [|done].
  by rewrite (each_node_mono _ limit limit' _ Hle _ _ Hst).
Qed.

(** *** Only components of two nodes or more are recorded *)

Lemma close_component_long v st st' :
  close_component v st = Some st' →
  Forall long (cycles st) → Forall long (cycles st').
Proof.
  unfold close_component. intros Hc Hl.
  destruct (lowlink st !! v) as [lv|]; [|done].
  destruct (index st !! v) as [iv|]; [|done]. simpl in Hc.
  destruct (decide (lv = iv)); [|by injection Hc as <-].
  destruct (pop_component v (stack st) (on_stack st) []) as [[[stk ons] comp]|];
    [|done].
  simpl in Hc. injection Hc as <-. simpl.
  destruct (decide (1 < length comp)); [|done].
  apply Forall_app. split; [done|]. apply Forall_singleton. unfold long. lia.
Qed.

Lemma each_successor_long call v :
  (∀ w s s', call w s = Some s' →
             Forall long (cycles s) → Forall long (cycles s')) →
  ∀ ws s s', each_successor call v ws s = Some s' →
             Forall long (cycles s) → Forall long (cycles s').
Proof.
  intros Hcall. induction ws as [|w ws IH]; intros s s' Hs Hl; simpl in Hs.
  - by injection Hs as <-.
  - destruct (index s !! w) as [iw|].
    + destruct (decide (w ∈ on_stack s)); [|by eapply IH].
      destruct (lowlink s !! v) as [lv|]; [|done]. simpl in Hs.
      by apply (IH _ _ Hs).
    + destruct (call w s) as [s1|] eqn:Hs1; [|done]. simpl in Hs.
      destruct (lowlink s1 !! v) as [lv|]; [|done]. simpl in Hs.
      destruct (lowlink s1 !! w) as [lw|]; [|done]. simpl in Hs.
      apply (IH _ _ Hs). simpl. by eapply Hcall.
Qed.

Lemma strongconnect_long graph limit :
  ∀ v st st', strongconnect limit graph v st = Some st' →
              Forall long (cycles st) → Forall long (cycles st').
Proof.
  induction limit as [|limit IH]; intros v st st' Hs Hl; [done|]. simpl in Hs.
  destruct (each_successor _ v _ _) as [s1|] eqn:Hs1; [|done]. simpl in Hs.
  eapply close_component_long; [exact Hs|].
  eapply each_successor_long; [exact IH|exact Hs1|done].
Qed.

Lemma each_node_long graph limit nodes :
  ∀ st st', each_node limit graph nodes st = Some st' →
            Forall long (cycles st) → Forall long (cycles st').
Proof.
  induction nodes as [|v nodes IH]; intros st st' Hs Hl; simpl in Hs.
  - by injection Hs as <-.
  - destruct (index st !! v); [by eapply IH|].
    destruct (strongconnect limit graph v st) as [s1|] eqn:Hs1; [|done].
    simpl in Hs. eapply IH; [exact Hs|]. by eapply strongconnect_long.
Qed.

Lemma tarjan_cycles_long limit records found :
  _tarjan_cycles limit records = Some found → Forall long found.
Proof.
  unfold _tarjan_cycles. intros Hf.
  destruct (each_node _ _ _ _) as [st|] eqn:Hst; [|done].
  injection Hf as <-. eapply each_node_long; [exact Hst|]. constructor.
Qed.

Lemma scan_cycle_long cycle :
  ∀ seen unique_cycle c, scan_cycle cycle seen unique_cycle = Some c → long c.
Proof.
  induction cycle as [|var cycle IH]; intros seen uc c Hc; simpl in Hc; [done|].
  destruct (decide (var ∉ seen)); [by eapply IH|].
  destruct (decide _) as [[_ Hlen]|_]; [|by eapply IH].
  injection Hc as <-. unfold long. lia.
Qed.

Lemma path_cycles_long records : Forall long (path_cycles records).
Proof.
  unfold path_cycles.
  assert (H : ∀ acc, Forall long acc →
    Forall long (fold_left
      (fun cycles cycle =>
         match scan_cycle cycle ∅ [] with
         | Some unique_cycle => cycles ++ [unique_cycle]
         | None => cycles
         end) records acc)).
  { induction records as [|r records IH]; intros acc Hacc; simpl; [done|].
    apply IH. destruct (scan_cycle r ∅ []) as [c|] eqn:Hc; [|done].
    apply Forall_app. split; [done|]. apply Forall_singleton.
    by eapply scan_cycle_long. }
  apply H. constructor.
Qed.

Lemma unique_cycles_sub (P : list string → Prop) l :
  ∀ acc, Forall P acc.2 → Forall P l →
         Forall P (fold_left unique_cycle_step l acc).2.
Proof.
  induction l as [|c l IH]; intros acc Hacc Hl; simpl; [done|].
  apply Forall_cons in Hl as [Hc Hl]. apply IH; [|done].
  unfold unique_cycle_step. destruct (decide _); [done|]. simpl.
  apply Forall_app. split; [done|]. by apply Forall_singleton.
Qed.

Lemma detect_cycles_of_long limit paths edges found :
  detect_cycles_of limit paths edges = Some found → Forall long found.
Proof.
  unfold detect_cycles_of.
  destruct (_tarjan_cycles limit edges) as [tarjan|] eqn:Ht; [|done].
  simpl. intros Heq. injection Heq as <-.
  apply unique_cycles_sub; [constructor|].
  apply Forall_app. split; [apply path_cycles_long|by eapply tarjan_cycles_long].
Qed.

Lemma detect_cycles_of_total limit paths edges :
  2 * length edges ≤ limit → is_Some (detect_cycles_of limit paths edges).
Proof.
  intros Hlimit. unfold detect_cycles_of.
  destruct (tarjan_total limit edges Hlimit) as [tarjan ->]. by eexists.
Qed.

Lemma detect_cycles_of_mono limit limit' paths edges found :
  limit ≤ limit' →
  detect_cycles_of limit paths edges = Some found →
  detect_cycles_of limit' paths edges = Some found.
Proof.
  intros Hle. unfold detect_cycles_of.
  destruct (_tarjan_cycles limit edges) as [tarjan|] eqn:Ht; [|done].
  by rewrite (tarjan_mono limit limit' edges tarjan Hle Ht).
Qed.

End TarjanFacts.

(** * Properties of the queries *)

Module CypherFacts.
Import Store Cypher GraphSpec.

(** *** [ORDER BY] *)

Section OrderBy.
Context {A : Type} (le : A → A → bool).

Lemma insert_by_perm x l : insert_by le x l ≡ₚ x :: l.
Proof.
  induction l as [|y l IH]; simpl; [done|].
  destruct (le x y); [done|]. rewrite IH. apply Permutation_swap.
Qed.

Lemma order_by_perm l : order_by le l ≡ₚ l.
Proof.
  induction l as [|x l IH]; simpl; [done|]. by rewrite insert_by_perm, IH.
Qed.

Lemma elem_of_order_by x l : x ∈ order_by le l ↔ x ∈ l.
Proof. by rewrite order_by_perm. Qed.

Lemma length_order_by l : length (order_by le l) = length l.
Proof. by rewrite order_by_perm. Qed.

Hypothesis le_total : ∀ a b, le a b = true ∨ le b a = true.
Hypothesis le_trans : ∀ a b c, le a b = true → le b c = true → le a c = true.

Lemma insert_by_sorted x l :
  StronglySorted (ordered le) l → StronglySorted (ordered le) (insert_by le x l).
Proof.
  induction 1 as [|y l Hs IH Hy]; simpl.
  - repeat constructor.
  - destruct (le x y) eqn:Hxy.
    + constructor; [by constructor|]. constructor; [done|].
      eapply Forall_impl; [exact Hy|]. intros z Hz. by eapply le_trans.
    + constructor; [done|]. rewrite insert_by_perm. constructor; [|done].
      destruct (le_total x y); [congruence|done].
Qed.

Lemma order_by_sorted l : StronglySorted (ordered le) (order_by le l).
Proof.
  induction l as [|x l IH]; simpl; [constructor|]. by apply insert_by_sorted.
Qed.

End OrderBy.

Lemma StronglySorted_weaken {A} (R R' : A → A → Prop) l :
  (∀ a b, R a b → R' a b) → StronglySorted R l → StronglySorted R' l.
Proof.
  intros HR. induction 1 as [|x l Hs IH Hx]; constructor; [done|].
  eapply Forall_impl; [exact Hx|]. intros y. apply HR.
Qed.

Lemma StronglySorted_take {A} (R : A → A → Prop) n l :
  StronglySorted R l → StronglySorted R (take n l).
Proof.
  intros Hs. rewrite <- (take_drop n l) in Hs.
  by apply StronglySorted_app_1_l in Hs.
Qed.

(** What [LIMIT] leaves out is no better than what it keeps. *)
Lemma StronglySorted_take_drop {A} (R : A → A → Prop) n l x y :
  StronglySorted R l → x ∈ take n l → y ∈ drop n l → R x y.
Proof.
  intros Hs Hx Hy. rewrite <- (take_drop n l) in Hs.
  by eapply StronglySorted_app_1_elem_of.
Qed.

(** *** Variable-length paths *)

Lemma path_end_cons start e p : path_end start (e :: p) = path_end e.2 p.
Proof.
  unfold path_end. simpl. generalize (map snd p) as xs. intros [|x xs]; [done|].
  revert x. induction xs as [|y xs IH]; intros x; [done|]. apply (IH y).
Qed.

Lemma path_end_app start p e : path_end start (p ++ [e]) = e.2.
Proof.
  revert start. induction p as [|f p IH]; intros start; [done|].
  change ((f :: p) ++ [e]) with (f :: (p ++ [e])). by rewrite path_end_cons.
Qed.

Lemma chain_app start p q :
  chain start (p ++ q) ↔ chain start p ∧ chain (path_end start p) q.
Proof.
  revert start. induction p as [|e p IH]; intros start; simpl.
  - unfold path_end; simpl. tauto.
  - rewrite IH, path_end_cons. tauto.
Qed.

(** [trails] lists exactly the edge-distinct chains of [k] edges. *)
Lemma elem_of_trails es k :
  ∀ used cur p,
    p ∈ trails es k used cur
    ↔ length p = k ∧ chain cur p ∧ NoDup p
      ∧ ∀ e, e ∈ p → e ∈ es ∧ e ∉ used.
Proof.
  induction k as [|k IH]; intros used cur p; simpl.
  - rewrite list_elem_of_singleton. split.
    + intros ->. split_and!; try done. constructor. intros e He. by apply elem_of_nil in He.
    + intros (Hl & _). by apply length_zero_iff_nil.
  - rewrite list_elem_of_In, in_flat_map. split.
    + intros (e & He & Hp). apply list_elem_of_In in He.
      destruct (decide _) as [[Hcur Hused]|]; [|by destruct Hp].
      apply list_elem_of_In, list_elem_of_fmap in Hp as (p' & -> & Hp').
      apply IH in Hp' as (Hl & Hc & Hnd & Hin). simpl.
      split; [by rewrite Hl|]. split; [done|].
      split.
      * constructor; [|done]. intros He'. apply Hin in He' as [_ Hu].
        apply Hu. by left.
      * intros e' He'. apply elem_of_cons in He' as [->|He']; [done|].
        apply Hin in He' as [? Hu]. split; [done|]. intros ?. apply Hu. by right.
    + intros (Hl & Hc & Hnd & Hin). destruct p as [|e p]; [done|].
      simpl in Hl, Hc. destruct Hc as [Hcur Hc].
      apply NoDup_cons in Hnd as [He Hnd].
      destruct (Hin e) as [Hes Hused]; [by left|].
      exists e. split; [by apply list_elem_of_In|].
      rewrite decide_True by done.
      apply list_elem_of_In, list_elem_of_fmap. exists p. split; [done|].
      apply IH. split; [lia|]. split; [done|]. split; [done|].
      intros e' He'. destruct (Hin e') as [? Hu]; [by right|]. split; [done|].
      intros Hc'. apply elem_of_cons in Hc' as [->|?]; [done|by apply Hu].
Qed.

(** A variable-length pattern matches exactly the trails. *)
Lemma elem_of_var_length_paths es cur p :
  p ∈ var_length_paths es cur ↔ trail es cur p.
Proof.
  unfold var_length_paths, trail, walk.
  rewrite list_elem_of_In, in_flat_map. split.
  - intros (k & Hk & Hp). apply in_seq in Hk. apply list_elem_of_In in Hp.
    apply elem_of_trails in Hp as (Hl & Hc & Hnd & Hin).
    split_and!; try done.
    + intros ->. simpl in Hl. lia.
    + intros e He. by apply Hin.
  - intros ((Hne & Hc & Hin) & Hnd). exists (length p). split.
    + apply in_seq. split; [destruct p; [done|simpl; lia]|].
      pose proof (submseteq_length p es (NoDup_submseteq p es Hnd Hin)). lia.
    + apply list_elem_of_In, elem_of_trails. split_and!; try done.
      intros e He. split; [by apply Hin|apply not_elem_of_nil].
Qed.

(** The patterns are in increasing number of hops. *)
Lemma var_length_paths_sorted es cur :
  StronglySorted (fun p q : list edge => length p ≤ length q)
    (var_length_paths es cur).
Proof.
  unfold var_length_paths. generalize 1 as a. generalize (length es) as n.
  induction n as [|n IH]; intros a; simpl; [constructor|].
  apply StronglySorted_app_2; [| |apply IH].
  - intros p q Hp Hq. apply elem_of_trails in Hp as (-> & _).
    apply list_elem_of_In, in_flat_map in Hq as (k & Hk & Hq).
    apply in_seq in Hk. apply list_elem_of_In, elem_of_trails in Hq as (-> & _). lia.
  - assert (Hsame : ∀ p, p ∈ trails es a [] cur → length p = a).
    { intros p Hp. by apply elem_of_trails in Hp as (? & _). }
    induction (trails es a [] cur) as [|p l IHl]; [constructor|].
    constructor; [apply IHl; intros; apply Hsame; by right|].
    apply Forall_forall. intros q Hq.
    rewrite (Hsame p), (Hsame q); [done|by right|by left].
Qed.

(** A trail read backwards is a trail of the reversed relationships. *)
Lemma reversed_trail es start p :
  trail es start p →
  trail (reversed es) (path_end start p)
    (reverse (map (fun e => (e.2, e.1)) p))
  ∧ path_end (path_end start p) (reverse (map (fun e => (e.2, e.1)) p)) = start.
Proof.
  intros ((Hne & Hc & Hin) & Hnd).
  assert (Hchain : ∀ q s, chain s q → q ≠ [] →
            chain (path_end s q) (reverse (map (fun e => (e.2, e.1)) q))
            ∧ path_end (path_end s q) (reverse (map (fun e => (e.2, e.1)) q)) = s).
  { induction q as [|e q IHq]; intros s Hq Hq'; [done|].
    destruct Hq as [<- Hq]. rewrite path_end_cons. simpl. rewrite reverse_cons.
    destruct q as [|f q].
    - simpl. unfold path_end; simpl. done.
    - destruct (IHq e.2 Hq) as [Hc' He']; [done|].
      split; [|by rewrite path_end_app].
      apply chain_app. split; [done|]. rewrite He'. simpl. done. }
  destruct (Hchain p start Hc Hne) as [Hc' He']. split; [|done].
  split; [split_and!|].
  - intros Hnil. apply (f_equal length) in Hnil.
    rewrite length_reverse, length_map in Hnil. destruct p; [done|simpl in Hnil; lia].
  - done.
  - intros e He. apply elem_of_reverse, list_elem_of_fmap in He as (e0 & -> & He0).
    unfold reversed. apply list_elem_of_fmap. exists e0. split; [done|by apply Hin].
  - rewrite reverse_Permutation. apply NoDup_fmap_2; [|done].
    intros [a b] [c d] Heq. simpl in Heq. congruence.
Qed.

End CypherFacts.

(** * Properties of the analyzer *)

Module AnalyzerFacts.
Import Store Cypher Analyzer GraphSpec CypherFacts LoaderSpec LoaderFacts.

(** *** The [depths] dictionary *)

Lemma dict_set_keys {V} k (v : V) d k' :
  k' ∈ map fst (dict_set k v d) ↔ k' = k ∨ k' ∈ map fst d.
Proof.
  induction d as [|[k0 v0] d IH]; simpl.
  - rewrite list_elem_of_singleton, elem_of_nil. tauto.
  - destruct (decide (k0 = k)) as [->|Hne]; simpl.
    + rewrite !elem_of_cons. tauto.
    + rewrite !elem_of_cons, IH. tauto.
Qed.

Lemma depths_of_keys records k :
  k ∈ map fst (depths_of records) ↔ k ∈ map fst records.
Proof.
  unfold depths_of.
  assert (H : ∀ d, k ∈ map fst (fold_left (fun d r => dict_set r.1 r.2 d) records d)
                   ↔ k ∈ map fst d ∨ k ∈ map fst records).
  { induction records as [|r records IH]; intros d; simpl.
    - rewrite elem_of_nil. tauto.
    - rewrite IH, dict_set_keys, elem_of_cons. tauto. }
  rewrite H. simpl. rewrite elem_of_nil. tauto.
Qed.

Lemma filtered_keys {V} (P : string * V → Prop) `{∀ x, Decision (P x)}
    (d : list (string * V)) k :
  k ∈ map fst (filter P d) → k ∈ map fst d.
Proof.
  intros Hk. apply list_elem_of_fmap in Hk as (x & -> & Hx).
  apply list_elem_of_filter in Hx as [_ Hx]. by apply list_elem_of_fmap_2.
Qed.

(** *** The rows of the two reachability queries *)

Lemma elem_of_reach_rows es v u d :
  (u, d) ∈ reach_rows es v
  ↔ u ≠ v ∧ ∃ p, trail es v p ∧ path_end v p = u ∧ length p = d.
Proof.
  unfold reach_rows.
  rewrite elem_of_order_by, elem_of_remove_dups, list_elem_of_fmap. split.
  - intros (p & Heq & Hp). injection Heq as -> ->.
    apply list_elem_of_filter in Hp as [Hne Hp].
    apply elem_of_var_length_paths in Hp. split; [done|]. by exists p.
  - intros (Hne & p & Hp & <- & <-). exists p. split; [done|].
    apply list_elem_of_filter. split; [done|]. by apply elem_of_var_length_paths.
Qed.

Lemma reach_rows_exclude es v : v ∉ map fst (reach_rows es v).
Proof.
  intros Hv. apply list_elem_of_fmap in Hv as ([u d] & -> & Hr).
  apply elem_of_reach_rows in Hr as [Hne _]. done.
Qed.

Lemma impact_rows_exclude db v : v ∉ map fst (impact_rows db v).
Proof.
  unfold impact_rows. destruct (decide _); [apply reach_rows_exclude|].
  apply not_elem_of_nil.
Qed.

Lemma dependency_rows_exclude db v : v ∉ map fst (dependency_rows db v).
Proof.
  unfold dependency_rows. destruct (decide _); [apply reach_rows_exclude|].
  apply not_elem_of_nil.
Qed.

Lemma all_edges_stored db e :
  well_formed db → e ∈ all_edges db → e.1 ∈ variables db ∧ e.2 ∈ variables db.
Proof.
  intros (_ & _ & Hends) He. unfold all_edges in He.
  apply list_elem_of_fmap in He as (r & -> & Hr). by apply Hends.
Qed.

Lemma trail_start_stored db v p :
  well_formed db → trail (all_edges db) v p → v ∈ variables db.
Proof.
  intros Hwf ((Hne & Hc & Hin) & _). destruct p as [|e p]; [done|].
  destruct Hc as [<- _]. apply (all_edges_stored db e Hwf). apply Hin. by left.
Qed.

Lemma trail_end_stored db v p :
  well_formed db → trail (all_edges db) v p → path_end v p ∈ variables db.
Proof.
  intros Hwf ((Hne & Hc & Hin) & _).
  destruct (exists_last Hne) as (q & e & ->). rewrite path_end_app.
  apply (all_edges_stored db e Hwf). apply Hin, elem_of_app. right. by left.
Qed.

(** *** The leaderboards *)

Lemma leaderboard_round_trip rows :
  leaderboard_metric (leaderboard_records rows) = rows.
Proof.
  unfold leaderboard_metric, leaderboard_records.
  induction rows as [|[v c] rows IH]; simpl; [done|]. by rewrite IH.
Qed.

Lemma count_desc_total a b : count_desc_le a b = true ∨ count_desc_le b a = true.
Proof.
  unfold count_desc_le. destruct (Nat.leb_spec b.2 a.2); [by left|right].
  apply Nat.leb_le. lia.
Qed.

Lemma count_desc_trans a b c :
  count_desc_le a b = true → count_desc_le b c = true → count_desc_le a c = true.
Proof. unfold count_desc_le. rewrite !Nat.leb_le. lia. Qed.

(** Every answer that the query permits is a top ten by degree. *)
Lemma permitted_top_ten (deg : string → nat) (vs : list string) rows :
  permitted deg vs rows → top_ten deg vs rows.
Proof.
  intros (sorted & Hperm & Hs & ->).
  assert (Hrow : ∀ r, r ∈ sorted ↔ r.1 ∈ vs ∧ r.2 = deg r.1 ∧ 0 < r.2).
  { intros [v c]. rewrite Hperm, list_elem_of_fmap. simpl.
    split.
    - intros (u & Heq & Hu). injection Heq as -> ->.
      apply list_elem_of_filter in Hu as [? ?]. done.
    - intros (Hv & -> & Hpos). exists v. split; [done|].
      by apply list_elem_of_filter. }
  split_and!.
  - rewrite length_take. lia.
  - by apply StronglySorted_take.
  - intros r Hr. apply Hrow. by eapply subseteq_take.
  - intros u Hu Hpos Hout.
    assert (Hin : (u, deg u) ∈ sorted) by by apply Hrow.
    rewrite <- (take_drop 10 sorted) in Hin.
    apply elem_of_app in Hin as [Hin|Hin]; [done|].
    split.
    + rewrite length_take. assert (10 < length sorted ∨ length sorted ≤ 10) as [|Hle] by lia; [lia|].
      rewrite drop_ge in Hin by done. by apply elem_of_nil in Hin.
    + intros r Hr.
      apply (StronglySorted_take_drop _ 10 sorted r (u, deg u) Hs Hr Hin).
Qed.

(** The rows of the embedding are one of the permitted answers. *)
Lemma rows_permitted (deg : string → nat) (vs : list string) :
  permitted deg vs
    (take 10
       (order_by count_desc_le
          (map (fun v => (v, deg v)) (filter (fun v => 0 < deg v) vs)))).
Proof.
  eexists. split; [apply order_by_perm|]. split; [|done].
  eapply StronglySorted_weaken;
    [|apply (order_by_sorted count_desc_le count_desc_total count_desc_trans)].
  intros a b. unfold ordered, count_desc_le. by rewrite Nat.leb_le.
Qed.

Lemma leaderboard_top_ten (deg : string → nat) (vs : list string) :
  top_ten deg vs
    (take 10
       (order_by count_desc_le
          (map (fun v => (v, deg v)) (filter (fun v => 0 < deg v) vs)))).
Proof. apply permitted_top_ten, rows_permitted. Qed.

(** The report on a store that answers every query: every report
    returned holds the rows of the queries and the cycles found. *)
Lemma get_metrics_stored limit db m :
  get_metrics limit db = Some m →
  ∃ found,
    detect_cycles limit db = Some found
    ∧ m = {| Metrics.total_variables := length (variables db);
             Metrics.total_dependencies := length (depends_on db);
             Metrics.most_dependent := most_dependent_rows db;
             Metrics.most_dependencies := most_dependencies_rows db;
             Metrics.isolated_variables := isolated_rows db;
             Metrics.root_variables := root_rows db;
             Metrics.leaf_variables := leaf_rows db;
             Metrics.circular_dependencies := length found;
             Metrics.cycles := found |}.
Proof.
  unfold get_metrics, get_metrics_of, detect_cycles_answers, answers_of.
  cbv beta iota delta [a_total_variables a_total_dependencies a_most_dependent
    a_most_dependencies a_isolated_variables a_root_variables a_leaf_variables
    a_cycle_paths a_edges].
  fold (detect_cycles limit db).
  destruct (detect_cycles limit db) as [found|]; [|done].
  intros Hm. exists found. split; [done|].
  rewrite !leaderboard_round_trip in Hm. by injection Hm as <-.
Qed.

(** The report is produced exactly when [detect_cycles] returns. *)
Lemma get_metrics_is_Some limit db :
  is_Some (get_metrics limit db) ↔ is_Some (detect_cycles limit db).
Proof.
  unfold get_metrics, get_metrics_of, detect_cycles_answers, answers_of.
  cbv beta iota delta [a_cycle_paths a_edges].
  fold (detect_cycles limit db).
  destruct (detect_cycles limit db) as [found|]; simpl.
  - split; intros _; by eexists.
  - split; by intros [? ?].
Qed.

(** It is produced on a stack that allows as many nested calls as the
    stored relationships have ends. *)
Lemma get_metrics_total limit db :
  2 * length (depends_on db) ≤ limit → is_Some (get_metrics limit db).
Proof.
  intros Hlimit. apply get_metrics_is_Some. unfold detect_cycles.
  apply TarjanFacts.detect_cycles_of_total.
  unfold all_edges. by rewrite length_map.
Qed.

(** *** In-degree 0 *)

Lemma has_incoming_in_degree db v :
  negb (has_incoming db v) ↔ in_degree db v = 0.
Proof.
  unfold has_incoming, in_degree.
  induction (depends_on db) as [|r rs IH]; simpl; [done|].
  rewrite filter_cons. destruct (decide (to_name r = v)) as [Heq|Hne].
  - rewrite bool_decide_eq_true_2 by done. simpl. split; [done|lia].
  - rewrite bool_decide_eq_false_2 by done. simpl. exact IH.
Qed.

End AnalyzerFacts.

(** * The extractor: further properties *)

Module ParserMore.
Import Parser ParserSpec ParserFacts MoreSpec.



(** *** Statements from which nothing is taken *)



(** *** The invariant of the finder *)



Lemma finder_ok_init path : finder_ok (init path).
Proof.
  split.
  - intros d Hd. by apply elem_of_nil in Hd.
  - intros x Hx. discriminate.
Qed.

Lemma finder_ok_set_line ln st : finder_ok st → finder_ok (set_line ln st).
Proof. intros H. exact H. Qed.

Lemma finder_ok_clear st : finder_ok st → finder_ok (set_target None st).
Proof. intros [Hd _]. split; [exact Hd|]. intros x Hx. discriminate. Qed.

Lemma finder_ok_bind id lineno st :
  finder_ok st →
  finder_ok (_record_location id lineno (add_variable id (set_target (Some id) st))).
Proof.
  intros [Hd _]. split; simpl.
  - intros d Hin. destruct (Hd d Hin) as (Hf & Ht & Hl & Hp).
    split_and!; [set_solver|set_solver| |done].
    destruct (decide (d.1.1.1 = id)) as [->|Hne].
    + rewrite lookup_insert_eq. by eexists.
    + by rewrite lookup_insert_ne.
  - intros x Hx. injection Hx as <-. split; [set_solver|].
    rewrite lookup_insert_eq. by eexists.
Qed.

Lemma finder_ok_visit_Name id ctx lineno st :
  finder_ok st → finder_ok (visit_Name id ctx lineno st).
Proof.
  intros Hok. unfold visit_Name.
  destruct (current_assign_target st) as [a|] eqn:Ha; simpl; [|done].
  destruct (decide (a = "")); [done|]. destruct (is_load ctx); [|done].
  destruct Hok as [Hd Ht]. destruct (Ht a Ha) as [Hav Hal].
  split; simpl.
  - intros d Hin. apply elem_of_app in Hin as [Hin|Hin].
    + destruct (Hd d Hin) as (? & ? & ? & ?). split_and!; try done; set_solver.
    + apply list_elem_of_singleton in Hin as ->. simpl.
      split_and!; try done; set_solver.
  - intros x Hx. rewrite Ha in Hx. injection Hx as <-. split; [set_solver|done].
Qed.

Lemma finder_ok_visit_expr e : ∀ st, finder_ok st → finder_ok (visit_expr e st).
Proof.
  induction e as [id c l|elts c l IH|fields IH] using expr_nested_ind;
    intros st Hok; simpl.
  - by apply finder_ok_visit_Name.
  - revert st Hok. induction IH as [|e es He _ IHes]; intros st Hok; simpl; [done|].
    by apply IHes, He.
  - revert st Hok. induction IH as [|e es He _ IHes]; intros st Hok; simpl; [done|].
    by apply IHes, He.
Qed.

Lemma finder_ok_bind_and_visit id lineno value st :
  finder_ok st → finder_ok (bind_and_visit id lineno value st).
Proof.
  intros Hok. unfold bind_and_visit.
  by apply finder_ok_clear, finder_ok_visit_expr, finder_ok_bind.
Qed.

Lemma finder_ok_visit_target_elt lineno t v st :
  finder_ok st → finder_ok (visit_target_elt lineno t v st).
Proof.
  intros Hok. destruct t; simpl; [by apply finder_ok_bind_and_visit|done|done].
Qed.

Lemma finder_ok_visit_Assign targets value lineno st :
  finder_ok st → finder_ok (visit_Assign targets value lineno st).
Proof.
  intros Hok. unfold visit_Assign.
  apply (finder_ok_set_line lineno) in Hok. revert Hok.
  generalize (set_line lineno st) as st0. intros st0 Hok.
  destruct targets as [|[id c l|telts c l|fields] [|t' ts]]; try done.
  - by apply finder_ok_bind_and_visit.
  - destruct value as [vid vc vl|velts vc vl|vfields].
    + revert st0 Hok. induction telts as [|t telts IH]; intros st0 Hok; simpl; [done|].
      by apply IH, finder_ok_visit_target_elt.
    + revert st0 Hok. induction (zip telts velts) as [|[t v] pairs IH];
        intros st0 Hok; simpl; [done|].
      by apply IH, finder_ok_visit_target_elt.
    + revert st0 Hok. induction telts as [|t telts IH]; intros st0 Hok; simpl; [done|].
      by apply IH, finder_ok_visit_target_elt.
Qed.

Lemma finder_ok_visit_AugAssign target value lineno st :
  finder_ok st → finder_ok (visit_AugAssign target value lineno st).
Proof.
  intros Hok. unfold visit_AugAssign.
  destruct target as [x c l|telts c l|fields]; try done.
  apply finder_ok_clear, finder_ok_visit_expr.
  pose proof (finder_ok_bind x lineno (set_line lineno st) Hok) as [Hd Ht].
  destruct (Ht x eq_refl) as [Hxv Hxl]. simpl in Hd, Hxv, Hxl.
  split; simpl.
  - intros d Hin. apply elem_of_app in Hin as [Hin|Hin]; [by apply Hd|].
    apply list_elem_of_singleton in Hin as ->. simpl. by split_and!.
  - intros y Hy. injection Hy as <-. by split.
Qed.

Lemma finder_ok_visit_stmt s : ∀ st, finder_ok st → finder_ok (visit_stmt s st).
Proof.
  induction s as [ts v l|t v l|children IH] using stmt_nested_ind; intros st Hok.
  - by apply finder_ok_visit_Assign.
  - by apply finder_ok_visit_AugAssign.
  - simpl. revert st Hok.
    induction children as [|c cs IHcs]; intros st Hok; simpl; [done|].
    apply IHcs; [intros s Hin; apply IH; by right|].
    destruct c as [e|s']; [by apply finder_ok_visit_expr|].
    apply IH; [by left|done].
Qed.

Lemma finder_ok_visit_Module body :
  ∀ st, finder_ok st → finder_ok (visit_Module body st).
Proof.
  unfold visit_Module. induction body as [|s body IH]; intros st Hok; simpl; [done|].
  by apply IH, finder_ok_visit_stmt.
Qed.

(** *** The shorter side of a tuple assignment decides *)

Lemma zip_take {A B} (l : list A) (k : list B) :
  zip l k = zip (take (length l `min` length k) l)
                (take (length l `min` length k) k).
Proof.
  revert k. induction l as [|x l IH]; intros [|y k]; simpl; try done.
  f_equal. apply IH.
Qed.

End ParserMore.

Section ExtractorMore.
Import Parser ParserSpec ParserFacts MoreSpec ParserMore.


(** X2.  An assignment [x = expr] to a plain name appends one
    dependency (x, name) per name read in [expr], in reading order and
    with the line of the name, and nothing else; wherever it stands in
    a file, every result that [find_variable_deps] returns for the file
    holds exactly one edge (x, name) for every name read in [expr]. *)
Theorem assignment_to_a_name_reads
    (x : string) (c : expr_context) (l : nat) (value : expr) (lineno : nat) :
  x ≠ "" →
  (∀ st, dependencies (visit_Assign [Name x c l] value lineno st)
         = dependencies st ++ edges_to x (filepath st) value)
  ∧ (∀ limit body path s out,
       In s body → occurs (Assign [Name x c l] value lineno) s →
       find_variable_deps limit (Module_ body) path = inr out →
       ∀ n, n ∈ map fst (loads value) → count_key (x, n) out = 1).
Proof.
  intros Hx. split.
  - intros st. unfold visit_Assign.
    destruct (bind_and_visit_spec x lineno value (set_line lineno st)) as (Hd & _).
    rewrite Hd. simpl. by rewrite decide_False.
  - intros limit body path s out Hs Hocc Hout.
    apply find_variable_deps_returned in Hout as [_ ->].
    intros n Hn. apply list_elem_of_fmap in Hn as ([n' ln] & -> & Hn).
    apply count_key_once; [apply keep_first_NoDup|].
    apply keep_first_keys. split; [|apply not_elem_of_nil].
    apply (list_elem_of_fmap_2 dep_key _ (x, n', ln, path)).
    apply list_elem_of_In, in_flat_map. exists s. split; [done|].
    apply list_elem_of_In, (occurs_stmt_deps _ _ _ _ Hocc). simpl.
    rewrite decide_False by done.
    unfold edges_to. by apply (list_elem_of_fmap_2 (fun nl => (x, nl.1, nl.2, path))) in Hn.
Qed.

Lemma assignment_to_a_name_reads_witness :
  "y" ≠ ""
  ∧ ∃ out, find_variable_deps 5
             (Module_ [Assign [Name "y" Store 10]
                         (OtherExpr [OtherExpr [Name "x" Load 10]]) 10])
             "test_vars.py" = inr out
           ∧ ∀ n, n ∈ ["x"] → count_key ("y", n) out = 1.
Proof.
  assert (Hne : "y" ≠ "") by discriminate.
  split; [exact Hne|].
  destruct (assignment_to_a_name_reads "y" Store 10
              (OtherExpr [OtherExpr [Name "x" Load 10]]) 10 Hne) as [_ H].
  eexists. split; [vm_compute; reflexivity|].
  apply (H 5 [Assign [Name "y" Store 10]
                (OtherExpr [OtherExpr [Name "x" Load 10]]) 10]
           "test_vars.py"
           (Assign [Name "y" Store 10]
              (OtherExpr [OtherExpr [Name "x" Load 10]]) 10)).
  - simpl. by left.
  - constructor.
  - vm_compute. reflexivity.
Defined.


(** X4.  In a tuple assignment with a tuple value the targets and the
    values are paired up to the shorter of the two: what lies beyond
    it, on either side, changes nothing. *)
Theorem tuple_assignment_pairs_up_to_the_shorter_side
    telts velts c l vc vl lineno st :
  visit_Assign [Tuple telts c l] (Tuple velts vc vl) lineno st
  = visit_Assign
      [Tuple (take (length telts `min` length velts) telts) c l]
      (Tuple (take (length telts `min` length velts) velts) vc vl) lineno st.
Proof.
  unfold visit_Assign. rewrite (zip_take telts velts) at 1. reflexivity.
Qed.

(** X5.  After the visit of a file both ends of every dependency are
    in [all_variables], the assigned variable of every dependency has
    a recorded location, every dependency carries the path of the
    file, and no target is left set. *)
Theorem visit_keeps_the_finder_consistent body path :
  finder_ok (visit_Module body (init path))
  ∧ current_assign_target (visit_Module body (init path)) = None
  ∧ filepath (visit_Module body (init path)) = path
  ∧ ∀ d, d ∈ dependencies (visit_Module body (init path)) →
         d.1.1.1 ∈ all_variables (visit_Module body (init path))
         ∧ d.1.1.2 ∈ all_variables (visit_Module body (init path))
         ∧ is_Some (variable_locations (visit_Module body (init path)) !! d.1.1.1)
         ∧ d.2 = path.
Proof.
  pose proof (finder_ok_visit_Module body (init path) (finder_ok_init path)) as Hok.
  destruct (visit_Module_spec body (init path) eq_refl) as (_ & Ht & Hf).
  split; [done|]. split; [done|]. split; [done|].
  intros d Hd. destruct Hok as [Hok _].
  destruct (Hok d Hd) as (? & ? & ? & Hp). split_and!; try done.
  by rewrite Hp, Hf.
Qed.

End ExtractorMore.

(** * The loader: further properties *)

Module LoaderMore.
Import Parser Store Loader LoaderSpec LoaderFacts MoreSpec Cypher.

Lemma endpoints_rel_of_dep deps :
  map endpoints (map rel_of_dep deps) = map dep_key deps.
Proof. induction deps as [|d deps IH]; simpl; [done|]. by rewrite IH. Qed.

Lemma elem_of_keys_find_rel k rs :
  k ∈ map endpoints rs ↔ is_Some (find_rel k rs).
Proof.
  pose proof (find_rel_None k rs) as H. destruct (find_rel k rs) eqn:Hf.
  - split; [by eexists|]. intros _.
    destruct (decide (k ∈ map endpoints rs)) as [|Hout]; [done|].
    apply H in Hout. discriminate.
  - split; [|intros [? ?]; discriminate]. intros Hin. by apply H in Hin.
Qed.

Lemma fold_merge_keys rows db k :
  k ∈ map endpoints (depends_on (fold_left merge_row rows db))
  ↔ k ∈ map endpoints (depends_on db) ∨ k ∈ map endpoints rows.
Proof.
  rewrite !elem_of_keys_find_rel, find_rel_fold, find_rel_app.
  destruct (find_rel k (depends_on db)); split; try tauto.
  - intros _. by eexists.
  - intros [[? ?]|?]; [discriminate|done].
Qed.

(** The stored lists only grow at their ends. *)
Lemma fold_merge_extends rows :
  ∀ db, (∃ new, variables (fold_left merge_row rows db) = variables db ++ new)
        ∧ (∃ new, depends_on (fold_left merge_row rows db) = depends_on db ++ new
                  ∧ new `sublist_of` rows).
Proof.
  induction rows as [|r rows IH]; intros db; simpl.
  - split; exists []; by rewrite app_nil_r.
  - destruct (IH (merge_row db r)) as ((nv & Hv) & (nr & Hr & Hsub)).
    split.
    + rewrite Hv. simpl. unfold merge_variable.
      repeat destruct (decide _); rewrite <- ?app_assoc; by eexists.
    + rewrite Hr. simpl. unfold merge_depends_on.
      destruct (decide _).
      * exists nr. split; [done|by apply sublist_cons].
      * exists (r :: nr). rewrite <- app_assoc. split; [done|by apply sublist_skip].
Qed.

(** Rows of new, distinct pairs are all stored, in order. *)
Lemma fold_merge_fresh rows :
  ∀ db, NoDup (map endpoints rows) →
        (∀ k, k ∈ map endpoints rows → k ∉ map endpoints (depends_on db)) →
        depends_on (fold_left merge_row rows db) = depends_on db ++ rows.
Proof.
  induction rows as [|r rows IH]; intros db Hnd Hfresh; simpl.
  - by rewrite app_nil_r.
  - apply NoDup_cons in Hnd as [Hr Hnd].
    assert (Hm : merge_depends_on r (depends_on db) = depends_on db ++ [r]).
    { unfold merge_depends_on. rewrite decide_False; [done|]. apply Hfresh. by left. }
    rewrite IH.
    + simpl. rewrite Hm. by rewrite <- app_assoc.
    + done.
    + intros k Hk. simpl. rewrite Hm, map_app, elem_of_app. simpl.
      rewrite list_elem_of_singleton. intros [Hin| ->]; [|done].
      apply (Hfresh k); [by right|done].
Qed.

(** *** No variable without a relationship *)

Lemma merge_row_no_orphans db row : no_orphans db → no_orphans (merge_row db row).
Proof.
  intros Hno v Hv. simpl in Hv.
  assert (Hrow : endpoints row ∈ map endpoints (merge_depends_on row (depends_on db)))
    by apply merge_depends_on_in.
  assert (Hkeep : ∀ r, r ∈ depends_on db → r ∈ merge_depends_on row (depends_on db)).
  { intros r Hr. unfold merge_depends_on. destruct (decide _); [done|].
    apply elem_of_app. by left. }
  apply list_elem_of_fmap in Hrow as (r0 & Hr0 & Hin0).
  unfold merge_variable in Hv.
  assert (Hcases : v ∈ variables db ∨ v = from_name row ∨ v = to_name row).
  { repeat destruct (decide _) in Hv;
      repeat (apply elem_of_app in Hv as [Hv|Hv]);
      try (apply list_elem_of_singleton in Hv); tauto. }
  destruct Hcases as [Hold|[->| ->]].
  - destruct (Hno v Hold) as (r & Hr & Hends). exists r. split; [by apply Hkeep|done].
  - exists r0. split; [done|]. left. unfold endpoints in Hr0. congruence.
  - exists r0. split; [done|]. right. unfold endpoints in Hr0. congruence.
Qed.

Lemma batch_no_orphans relationships :
  ∀ db, no_orphans db → no_orphans (_batch_create_relationships db relationships).
Proof.
  unfold _batch_create_relationships.
  induction (map rel_of_dep relationships) as [|r rows IH]; intros db Hno; simpl.
  - done.
  - by apply IH, merge_row_no_orphans.
Qed.

Lemma load_from_file_keeps limit db src path db' n :
  load_from_file limit db src path = inr (db', n) →
  well_formed db ∧ no_orphans db → well_formed db' ∧ no_orphans db'.
Proof.
  unfold load_from_file.
  destruct (find_variable_deps limit src path) as [e|deps]; [done|].
  intros Heq [Hwf Hno]. injection Heq as <- <-.
  destruct deps as [|d deps]; [done|].
  split; [by apply batch_well_formed|by apply batch_no_orphans].
Qed.

Lemma load_from_directory_keeps limit files :
  ∀ acc, well_formed acc.1 ∧ no_orphans acc.1 →
         well_formed (fold_left (directory_step limit) files acc).1
         ∧ no_orphans (fold_left (directory_step limit) files acc).1.
Proof.
  induction files as [|f files IH]; intros acc Hok; simpl; [done|].
  apply IH. unfold directory_step.
  destruct (load_from_file limit acc.1 f.2 f.1) as [e|[db' c]] eqn:Hl; [done|].
  by eapply load_from_file_keeps.
Qed.

Lemma no_orphans_has_any db v :
  no_orphans db → v ∈ variables db → has_any db v = true.
Proof.
  intros Hno Hv. destruct (Hno v Hv) as (r & Hr & Hends).
  unfold has_any. apply existsb_exists. exists r.
  split; [by apply list_elem_of_In|].
  apply orb_true_iff.
  destruct Hends as [He|He]; [left|right]; by apply bool_decide_eq_true_2.
Qed.

Lemma no_orphans_isolated db : no_orphans db → isolated_rows db = [].
Proof.
  intros Hno. unfold isolated_rows. apply elem_of_nil_inv. intros v Hv.
  apply list_elem_of_filter in Hv as [Hiso Hv].
  by rewrite (no_orphans_has_any db v Hno Hv) in Hiso.
Qed.

Lemma empty_no_orphans : no_orphans empty_db.
Proof. intros v Hv. by apply elem_of_nil in Hv. Qed.

(** *** Files that fail *)

Lemma parses_false limit f :
  parses limit f = false → ∃ e, find_variable_deps limit f.2 f.1 = inl e.
Proof.
  unfold parses. destruct (find_variable_deps limit f.2 f.1); [|done].
  intros _. by eexists.
Qed.

Lemma directory_step_failed limit acc f :
  parses limit f = false → directory_step limit acc f = acc.
Proof.
  intros Hp. unfold directory_step, load_from_file.
  by destruct (parses_false limit f Hp) as [e ->].
Qed.

Lemma directory_step_count limit acc f :
  (directory_step limit acc f).2 = acc.2 + found limit f.
Proof.
  unfold directory_step, found, load_from_file.
  destruct (find_variable_deps limit f.2 f.1); simpl; lia.
Qed.

Lemma load_directory_fold limit files :
  ∀ acc,
    fold_left (directory_step limit) files acc
    = fold_left (directory_step limit)
        (filter (fun f => parses limit f) files) acc
    ∧ (fold_left (directory_step limit) files acc).2
      = acc.2 + sum_list (map (found limit) files).
Proof.
  induction files as [|f files IH]; intros acc; simpl; [split; [done|lia]|].
  destruct (IH (directory_step limit acc f)) as [H1 H2].
  split.
  - rewrite filter_cons. destruct (parses limit f) eqn:Hp; simpl; [done|].
    rewrite directory_step_failed by done. apply IH.
  - rewrite H2, directory_step_count. lia.
Qed.

End LoaderMore.

Section LoaderExtras.
Import Parser ParserSpec ParserFacts Store Loader LoaderSpec LoaderFacts
  MoreSpec LoaderMore Cypher Analyzer AnalyzerFacts.

(** X6.  [_batch_create_relationships] only adds at the end of what is
    stored: the variables and the relationships of before are kept,
    in place and with their properties, the relationships added are
    rows of the batch in the order of the batch, and the pairs stored
    afterwards are those of before and those of the batch. *)
Theorem batch_only_adds db relationships :
  (∃ new, variables (_batch_create_relationships db relationships)
          = variables db ++ new)
  ∧ (∃ new, depends_on (_batch_create_relationships db relationships)
            = depends_on db ++ new
            ∧ new `sublist_of` map rel_of_dep relationships)
  ∧ (∀ k, k ∈ all_edges (_batch_create_relationships db relationships)
          ↔ k ∈ all_edges db ∨ k ∈ map dep_key relationships).
Proof.
  unfold _batch_create_relationships.
  destruct (fold_merge_extends (map rel_of_dep relationships) db) as [Hv Hr].
  split; [exact Hv|]. split; [exact Hr|].
  intros k. unfold all_edges. by rewrite fold_merge_keys, endpoints_rel_of_dep.
Qed.

(** X7.  Loading a directory into a database that holds one
    relationship per pair, both ends of each, and no variable without
    a relationship leaves such a database; its [isolated_variables]
    query has no row, and every report that [get_metrics] returns for
    it lists no isolated variable. *)
Theorem loading_leaves_no_isolated_variable limit db files :
  well_formed db → no_orphans db →
  well_formed (load_from_directory limit db files).1
  ∧ no_orphans (load_from_directory limit db files).1
  ∧ isolated_rows (load_from_directory limit db files).1 = []
  ∧ ∀ depth m,
      get_metrics depth (load_from_directory limit db files).1 = Some m →
      Metrics.isolated_variables m = [].
Proof.
  intros Hwf Hno.
  destruct (load_from_directory_keeps limit files (db, 0)) as [Hwf' Hno']; [done|].
  change (fold_left (directory_step limit) files (db, 0))
    with (load_from_directory limit db files) in Hwf', Hno'.
  split; [done|]. split; [done|].
  pose proof (no_orphans_isolated _ Hno') as Hiso. split; [done|].
  intros depth m Hm.
  apply get_metrics_stored in Hm as (found & _ & ->). exact Hiso.
Qed.

Lemma loading_leaves_no_isolated_variable_witness :
  isolated_rows
    (load_from_directory 3 empty_db
       [("vars.py", Module_ [Samples.counter_stmt]);
        ("broken.py", BadSyntax 3 "invalid syntax")]).1 = []
  ∧ (load_from_directory 3 empty_db
       [("vars.py", Module_ [Samples.counter_stmt]);
        ("broken.py", BadSyntax 3 "invalid syntax")]).2 = 2.
Proof.
  destruct (loading_leaves_no_isolated_variable 3 empty_db
              [("vars.py", Module_ [Samples.counter_stmt]);
               ("broken.py", BadSyntax 3 "invalid syntax")]
              empty_well_formed empty_no_orphans) as (_ & _ & H & _).
  split; [exact H|]. vm_compute. reflexivity.
Defined.

(** X8.  [load_files] replaces the graph: when [find_variable_deps]
    returns for the file, the relationships stored afterwards carry,
    one for one and in the order of their creation, the two names, the
    line and the file of the dependencies returned, whatever was stored
    before; the count printed is their number, and it is the
    [total_dependencies] of every report that [get_metrics] returns.
    When [find_variable_deps] raises (no file, a syntax error, a visit
    deeper than the stack), or nothing is found at the path, the
    database is left empty: it is cleared first. *)
Theorem load_files_replaces_the_graph limit db path :
  (∀ src deps,
     find_variable_deps limit src path = inr deps →
     ∃ db',
       Cli.load_files limit db path (Cli.IsFile src) = (db', Some (length deps))
       ∧ map (fun r => (from_name r, to_name r, line_number r, rel_filepath r))
           (depends_on db') = deps
       ∧ (∀ depth m, get_metrics depth db' = Some m →
                     Metrics.total_dependencies m = length deps))
  ∧ (∀ src e, find_variable_deps limit src path = inl e →
              Cli.load_files limit db path (Cli.IsFile src) = (empty_db, None))
  ∧ Cli.load_files limit db path Cli.NotFound = (empty_db, None).
Proof.
  split_and!.
  - intros src deps Hdeps.
    set (db' := match deps with
                | [] => empty_db
                | _ => _batch_create_relationships empty_db deps
                end).
    assert (Hstored : depends_on db' = map rel_of_dep deps).
    { destruct src as [| | | |body]; try done.
      apply find_variable_deps_returned in Hdeps as [_ Hdeps].
      unfold db'. destruct deps as [|d deps'] eqn:Hd; [done|].
      unfold _batch_create_relationships. rewrite fold_merge_fresh; [done| |].
      - rewrite endpoints_rel_of_dep, Hdeps. apply keep_first_NoDup.
      - intros k _. apply not_elem_of_nil. }
    exists db'. split.
    { unfold Cli.load_files, load_from_file. by rewrite Hdeps. }
    split.
    + rewrite Hstored, map_map. rewrite <- (map_id deps) at 2.
      apply map_ext. by intros [[[a b] ln] f].
    + intros depth m Hm. apply get_metrics_stored in Hm as (found & _ & ->).
      cbn [Metrics.total_dependencies]. by rewrite Hstored, length_map.
  - intros src e He. unfold Cli.load_files, load_from_file. by rewrite He.
  - done.
Qed.

Lemma load_files_replaces_the_graph_witness :
  (∃ db',
     Cli.load_files 3 Samples.tie_db "vars.py"
       (Cli.IsFile (Module_ [Samples.counter_stmt])) = (db', Some 2)
     ∧ map (fun r => (from_name r, to_name r, line_number r, rel_filepath r))
         (depends_on db')
       = [("counter", "counter", 26, "vars.py");
          ("counter", "base_rate", 26, "vars.py")])
  ∧ Cli.load_files 2 Samples.tie_db "vars.py"
      (Cli.IsFile (Module_ [Samples.counter_stmt])) = (empty_db, None).
Proof.
  split.
  - destruct (load_files_replaces_the_graph 3 Samples.tie_db "vars.py")
      as (H & _ & _).
    destruct (H (Module_ [Samples.counter_stmt])
                [("counter", "counter", 26, "vars.py");
                 ("counter", "base_rate", 26, "vars.py")])
      as (db' & Hload & Hrows & _); [vm_compute; reflexivity|].
    exists db'. split; [exact Hload|exact Hrows].
  - destruct (load_files_replaces_the_graph 2 Samples.tie_db "vars.py")
      as (_ & H & _).
    apply (H (Module_ [Samples.counter_stmt]) ParsingError).
    vm_compute. reflexivity.
Defined.

(** X9.  [load_from_directory] goes on after a file that fails: the
    result is the one of loading the files for which
    [find_variable_deps] returns, and the total returned is the sum of
    what [find_variable_deps] finds in them. *)
Theorem load_from_directory_skips_failures limit db files :
  load_from_directory limit db files
  = load_from_directory limit db (filter (fun f => parses limit f) files)
  ∧ (load_from_directory limit db files).2
    = sum_list (map (found limit) files).
Proof.
  destruct (load_directory_fold limit files (db, 0)) as [H1 H2]. split.
  - exact H1.
  - exact H2.
Qed.

End LoaderExtras.

(** * Tarjan's pass: the components are apart *)

Module TarjanMore.
Import Store Analyzer TarjanSpec TarjanFacts MoreSpec.

Lemma pop_component_split v stk :
  ∀ ons acc stk' ons' component,
    pop_component v stk ons acc = Some (stk', ons', component) →
    ∃ popped, component = acc ++ popped ∧ stk = popped ++ stk'.
Proof.
  induction stk as [|w stk IH]; intros ons acc stk' ons' component Hp;
    simpl in Hp; [done|].
  destruct (decide (w ∈ ons)); [|done].
  destruct (decide (w = v)).
  - injection Hp as <- <- <-. by exists [w].
  - apply IH in Hp as (popped & -> & ->). exists (w :: popped).
    by rewrite <- app_assoc.
Qed.

Lemma apart_enter v st : apart st → index st !! v = None → apart (enter v st).
Proof.
  intros [Hnd Hin] Hv. apply not_elem_of_dom in Hv.
  split; simpl.
  - apply NoDup_app in Hnd as (Hc & Hcs & Hs).
    apply NoDup_app. split; [done|]. split.
    + intros x Hx Hx'. apply elem_of_cons in Hx' as [->|Hx']; [|by eapply Hcs].
      apply Hv, Hin, elem_of_app. by left.
    + constructor; [|done]. intros Hx. apply Hv, Hin, elem_of_app. by right.
  - intros x Hx. rewrite dom_insert_L.
    apply elem_of_app in Hx as [Hx|Hx].
    + apply elem_of_union. right. apply Hin, elem_of_app. by left.
    + apply elem_of_cons in Hx as [->|Hx]; [set_solver|].
      apply elem_of_union. right. apply Hin, elem_of_app. by right.
Qed.

Lemma apart_set_lowlink v n st : apart st → apart (set_lowlink v n st).
Proof. intros H. exact H. Qed.

Lemma apart_close_component v st st' :
  close_component v st = Some st' → apart st →
  apart st' ∧ index st' = index st.
Proof.
  unfold close_component. intros Hc [Hnd Hin].
  destruct (lowlink st !! v) as [lv|]; [|done].
  destruct (index st !! v) as [iv|]; [|done]. simpl in Hc.
  destruct (decide (lv = iv)); [|by injection Hc as <-].
  destruct (pop_component v (stack st) (on_stack st) [])
    as [[[stk ons] comp]|] eqn:Hpop; [|done].
  apply pop_component_split in Hpop as (popped & -> & Hstack). simpl in *.
  injection Hc as <-. simpl. split; [|done].
  rewrite Hstack in Hnd, Hin.
  destruct (decide (1 < length popped)); (split; simpl).
  - by rewrite concat_app, <- app_assoc; simpl; rewrite app_nil_r.
  - intros x Hx. apply Hin.
    by rewrite concat_app, <- app_assoc in Hx; simpl in Hx; rewrite app_nil_r in Hx.
  - rewrite app_assoc in Hnd. apply NoDup_app in Hnd as (Hl & Hd & Hr).
    apply NoDup_app in Hl as (Hc & _ & _).
    apply NoDup_app. split; [done|]. split; [|done].
    intros x Hx. apply Hd, elem_of_app. by left.
  - intros x Hx. apply Hin. rewrite !elem_of_app in *. tauto.
Qed.

Lemma apart_each_successor call v :
  (∀ w s s', index s !! w = None → call w s = Some s' → apart s →
             apart s' ∧ dom (index s) ⊆ dom (index s')) →
  ∀ ws s s', each_successor call v ws s = Some s' → apart s →
             apart s' ∧ dom (index s) ⊆ dom (index s').
Proof.
  intros Hcall. induction ws as [|w ws IH]; intros s s' Hs Ha; simpl in Hs.
  - by injection Hs as <-.
  - destruct (index s !! w) as [iw|] eqn:Hw.
    + destruct (decide (w ∈ on_stack s)); [|by eapply IH].
      destruct (lowlink s !! v) as [lv|]; [|done]. simpl in Hs.
      by apply (IH _ _ Hs).
    + destruct (call w s) as [s1|] eqn:Hs1; [|done]. simpl in Hs.
      destruct (lowlink s1 !! v) as [lv|]; [|done]. simpl in Hs.
      destruct (lowlink s1 !! w) as [lw|]; [|done]. simpl in Hs.
      destruct (Hcall w s s1 Hw Hs1 Ha) as [Ha1 Hsub1].
      destruct (IH _ _ Hs) as [Ha' Hsub']; [done|]. split; [done|].
      simpl in Hsub'. set_solver.
Qed.

Lemma apart_strongconnect graph limit :
  ∀ v st st', index st !! v = None → strongconnect limit graph v st = Some st' →
              apart st → apart st' ∧ dom (index st) ⊆ dom (index st').
Proof.
  induction limit as [|limit IH]; intros v st st' Hv Hs Ha; [done|]. simpl in Hs.
  destruct (each_successor _ v _ _) as [s1|] eqn:Hs1; [|done]. simpl in Hs.
  destruct (apart_each_successor (strongconnect limit graph) v IH _ _ _ Hs1)
    as [Ha1 Hsub1]; [by apply apart_enter|].
  destruct (apart_close_component v s1 st' Hs Ha1) as [Ha' Hidx].
  split; [done|]. rewrite Hidx. simpl in Hsub1. rewrite dom_insert_L in Hsub1.
  set_solver.
Qed.

Lemma apart_each_node graph limit nodes :
  ∀ st st', each_node limit graph nodes st = Some st' → apart st → apart st'.
Proof.
  induction nodes as [|v nodes IH]; intros st st' Hs Ha; simpl in Hs.
  - by injection Hs as <-.
  - destruct (index st !! v) eqn:Hv; [by eapply IH|].
    destruct (strongconnect limit graph v st) as [s1|] eqn:Hs1; [|done].
    simpl in Hs. eapply IH; [exact Hs|].
    by destruct (apart_strongconnect graph limit v st s1 Hv Hs1 Ha).
Qed.

Lemma graph_append_names_in k w graph v :
  v ∈ graph_names (graph_append k w graph) →
  v = k ∨ v = w ∨ v ∈ graph_names graph.
Proof.
  unfold graph_names. induction graph as [|[k' ws] graph IH]; simpl.
  - rewrite !elem_of_cons, elem_of_nil. tauto.
  - destruct (decide (k' = k)) as [->|Hne]; simpl.
    + rewrite !elem_of_cons, !elem_of_app, list_elem_of_singleton. tauto.
    + rewrite !elem_of_cons, !elem_of_app. tauto.
Qed.

Lemma build_graph_names_in records v :
  v ∈ graph_names (build_graph records) → v ∈ endpoint_names records.
Proof.
  unfold build_graph.
  assert (H : ∀ graph,
    v ∈ graph_names (fold_left (fun g r => graph_append r.1 r.2 g) records graph) →
    v ∈ graph_names graph ∨ v ∈ endpoint_names records).
  { induction records as [|r records IH]; intros graph Hv; simpl in *; [by left|].
    apply IH in Hv as [Hv|Hv].
    - apply graph_append_names_in in Hv as [->|[->|Hv]].
      + right. by left.
      + right. right. by left.
      + by left.
    - right. right. by right. }
  intros Hv. apply H in Hv as [Hv|Hv]; [|done]. by apply elem_of_nil in Hv.
Qed.

Lemma NoDup_concat_each (l : list (list string)) c :
  NoDup (concat l) → c ∈ l → NoDup c.
Proof.
  induction l as [|x l IH]; simpl; intros Hnd Hc; [by apply elem_of_nil in Hc|].
  apply NoDup_app in Hnd as (Hx & _ & Hl).
  apply elem_of_cons in Hc as [->|Hc]; [done|by apply IH].
Qed.

(** With no call of [strongconnect] allowed the pass raises as soon
    as there is an edge. *)
Lemma graph_append_nonempty k v graph : graph_append k v graph ≠ [].
Proof. destruct graph as [|[k' ws] graph]; simpl; [done|]. by destruct (decide _). Qed.

Lemma build_graph_nonempty records : records ≠ [] → build_graph records ≠ [].
Proof.
  unfold build_graph.
  assert (H : ∀ rs graph, graph ≠ [] →
            fold_left (fun g r => graph_append r.1 r.2 g) rs graph ≠ []).
  { induction rs as [|r rs IH]; intros graph Hg; simpl; [done|].
    apply IH, graph_append_nonempty. }
  destruct records as [|r records]; [done|]. intros _. simpl.
  by apply H.
Qed.

Lemma tarjan_no_stack records : records ≠ [] → _tarjan_cycles 0 records = None.
Proof.
  intros Hne. unfold _tarjan_cycles.
  destruct (build_graph records) as [|[k ws] graph] eqn:Hg.
  - by apply build_graph_nonempty in Hne.
  - simpl. by rewrite lookup_empty.
Qed.

(** The final state of a pass that returns, with both invariants. *)
Lemma tarjan_final limit records found :
  _tarjan_cycles limit records = Some found →
  ∃ st, found = cycles st
        ∧ apart st
        ∧ ∀ v, v ∈ dom (index st) → v ∈ endpoint_names records.
Proof.
  unfold _tarjan_cycles.
  set (graph := build_graph records).
  destruct (each_node limit graph (map fst graph) tarjan_init) as [st|] eqn:Hst;
    [|done].
  simpl. intros Heq. injection Heq as <-. exists st. split; [done|].
  split.
  { eapply apart_each_node; [exact Hst|]. split; simpl; [constructor|].
    intros v Hv. by apply elem_of_nil in Hv. }
  set (U := list_to_set (graph_names graph) : gset string).
  assert (Hclosed : ∀ v w, w ∈ graph_get graph v → w ∈ U).
  { intros v w Hw. apply elem_of_list_to_set. by eapply graph_get_names. }
  set (big := limit `max` (2 * length records)).
  destruct (each_node_total graph U Hclosed big
              (map fst graph) tarjan_init) as (st' & Hst' & Hinv).
  - apply (tarjan_init_inv graph U Hclosed).
  - intros v Hv. apply elem_of_list_to_set. by apply graph_keys_names.
  - unfold TarjanSpec.unvisited.
    etrans; [apply (subseteq_size (C:=gset string) _ U); set_solver|].
    etrans; [apply size_list_to_set_le|].
    etrans; [apply build_graph_names|]. unfold big. lia.
  - rewrite (each_node_mono graph limit big (map fst graph)) with (st' := st)
      in Hst'; [|unfold big; lia|done].
    injection Hst' as <-.
    intros v Hv. destruct Hinv as (_ & _ & _ & _ & HU).
    apply build_graph_names_in. fold graph.
    apply HU in Hv. by apply elem_of_list_to_set in Hv.
Qed.

End TarjanMore.

(** * [detect_cycles]: one report per set of names *)

Module CyclesMore.
Import Store Cypher Analyzer GraphSpec CypherFacts TarjanSpec TarjanFacts
  MoreSpec TarjanMore.

(** *** The order of names *)

Lemma ascii_compare_refl a : Ascii.compare a a = Eq.
Proof. unfold Ascii.compare. apply N.compare_refl. Qed.

Lemma ascii_compare_lt_trans a b c :
  Ascii.compare a b = Lt → Ascii.compare b c = Lt → Ascii.compare a c = Lt.
Proof.
  unfold Ascii.compare. rewrite !N.compare_lt_iff. apply N.lt_trans.
Qed.

Lemma string_compare_trans s1 :
  ∀ s2 s3, String.compare s1 s2 ≠ Gt → String.compare s2 s3 ≠ Gt →
           String.compare s1 s3 ≠ Gt.
Proof.
  induction s1 as [|a s1 IH]; intros [|b s2] [|c s3]; simpl; try done.
  destruct (Ascii.compare a b) eqn:Hab; [|intros _|done].
  - apply Ascii.compare_eq_iff in Hab as ->.
    destruct (Ascii.compare b c); [apply IH|done|done].
  - destruct (Ascii.compare b c) eqn:Hbc; [|intros _|done].
    + apply Ascii.compare_eq_iff in Hbc as <-. by rewrite Hab.
    + by rewrite (ascii_compare_lt_trans a b c).
Qed.

Lemma string_leb_trans s1 s2 s3 :
  String.leb s1 s2 = true → String.leb s2 s3 = true → String.leb s1 s3 = true.
Proof.
  unfold String.leb. intros H12 H23.
  pose proof (string_compare_trans s1 s2 s3) as H.
  destruct (String.compare s1 s2), (String.compare s2 s3),
    (String.compare s1 s3); try done; exfalso; by apply H.
Qed.

Lemma cycle_tuple_sorted c : StronglySorted (ordered String.leb) (cycle_tuple c).
Proof. apply order_by_sorted; [apply String.leb_total|apply string_leb_trans]. Qed.

Lemma cycle_tuple_perm c : cycle_tuple c ≡ₚ c.
Proof. apply order_by_perm. Qed.

(** Two lists of the same names have the same sorted tuple, and
    conversely. *)
Lemma cycle_tuple_eq c1 c2 : cycle_tuple c1 = cycle_tuple c2 ↔ c1 ≡ₚ c2.
Proof.
  split.
  - intros Heq. by rewrite <- (cycle_tuple_perm c1), Heq, cycle_tuple_perm.
  - intros Hp.
    assert (Hanti : AntiSymm (=) (ordered String.leb)).
    { intros a b. apply String.leb_antisym. }
    apply (StronglySorted_unique (ordered String.leb));
      [apply cycle_tuple_sorted|apply cycle_tuple_sorted|].
    by rewrite !cycle_tuple_perm.
Qed.

(** *** The path pass *)

Lemma scan_cycle_NoDup cycle :
  ∀ seen unique_cycle c,
    (∀ x, x ∈ seen ↔ x ∈ unique_cycle) → NoDup unique_cycle →
    scan_cycle cycle seen unique_cycle = Some c → NoDup c.
Proof.
  induction cycle as [|var cycle IH]; intros seen uc c Hseen Hnd Hc;
    simpl in Hc; [done|].
  destruct (decide (var ∉ seen)) as [Hnew|_].
  - eapply IH; [| |exact Hc].
    + intros x. rewrite elem_of_union, elem_of_singleton, elem_of_app,
        list_elem_of_singleton, Hseen. tauto.
    + apply NoDup_app. split; [done|]. split; [|apply NoDup_singleton].
      intros x Hx Hx'. apply list_elem_of_singleton in Hx' as ->.
      by apply Hnew, Hseen.
  - destruct (decide _); [by injection Hc as <-|]. by eapply IH.
Qed.

Lemma path_cycles_NoDup records : Forall (fun c => NoDup c) (path_cycles records).
Proof.
  unfold path_cycles.
  assert (H : ∀ acc, Forall (fun c : list string => NoDup c) acc →
    Forall (fun c : list string => NoDup c) (fold_left
      (fun cycles cycle =>
         match scan_cycle cycle ∅ [] with
         | Some unique_cycle => cycles ++ [unique_cycle]
         | None => cycles
         end) records acc)).
  { induction records as [|r records IH]; intros acc Hacc; simpl; [done|].
    apply IH. destruct (scan_cycle r ∅ []) as [c|] eqn:Hc; [|done].
    apply Forall_app. split; [done|]. apply Forall_singleton.
    eapply scan_cycle_NoDup; [| |exact Hc]; [|constructor].
    intros x. rewrite elem_of_nil. set_solver. }
  apply H. constructor.
Qed.

(** *** The loop that removes duplicates *)

Lemma unique_cycles_tuples l :
  ∀ acc,
    (∀ t, t ∈ acc.1 ↔ t ∈ map cycle_tuple acc.2) →
    NoDup (map cycle_tuple acc.2) →
    NoDup (map cycle_tuple (fold_left unique_cycle_step l acc).2)
    ∧ (∀ c, c ∈ acc.2 ++ l →
            cycle_tuple c ∈ map cycle_tuple (fold_left unique_cycle_step l acc).2)
    ∧ (∀ c, c ∈ (fold_left unique_cycle_step l acc).2 → c ∈ acc.2 ++ l).
Proof.
  induction l as [|c l IH]; intros acc Hseen Hnd; simpl.
  - split; [done|]. split.
    + intros c Hc. rewrite app_nil_r in Hc. by apply list_elem_of_fmap_2.
    + intros c Hc. by rewrite app_nil_r.
  - assert (Hstep : (∀ t, t ∈ (unique_cycle_step acc c).1
                          ↔ t ∈ map cycle_tuple (unique_cycle_step acc c).2)
                    ∧ NoDup (map cycle_tuple (unique_cycle_step acc c).2)
                    ∧ (∀ x, x ∈ acc.2 → x ∈ (unique_cycle_step acc c).2)
                    ∧ cycle_tuple c ∈ map cycle_tuple (unique_cycle_step acc c).2
                    ∧ (∀ x, x ∈ (unique_cycle_step acc c).2 → x ∈ acc.2 ∨ x = c)).
    { unfold unique_cycle_step. destruct (decide _) as [Hin|Hout]; simpl.
      - split_and!; try done; [by apply Hseen|by left].
      - split_and!.
        + intros t. rewrite elem_of_union, elem_of_singleton, map_app, elem_of_app,
            Hseen. simpl. rewrite list_elem_of_singleton. tauto.
        + rewrite map_app. apply NoDup_app. split; [done|].
          split; [|apply NoDup_singleton].
          intros t Ht Ht'. apply list_elem_of_singleton in Ht' as ->.
          by apply Hout, Hseen.
        + intros x Hx. apply elem_of_app. by left.
        + rewrite map_app. apply elem_of_app. right. by left.
        + intros x Hx. apply elem_of_app in Hx as [?|Hx]; [by left|].
          right. by apply list_elem_of_singleton in Hx. }
    destruct Hstep as (Hs1 & Hs2 & Hs3 & Hs4 & Hs5).
    destruct (IH (unique_cycle_step acc c) Hs1 Hs2) as (H1 & H2 & H3).
    split; [done|]. split.
    + intros x Hx. apply elem_of_app in Hx as [Hx|Hx].
      * apply H2, elem_of_app. left. by apply Hs3.
      * apply elem_of_cons in Hx as [->|Hx].
        -- apply list_elem_of_fmap in Hs4 as (c' & Heq & Hc').
           rewrite Heq. apply H2, elem_of_app. by left.
        -- apply H2, elem_of_app. by right.
    + intros x Hx. apply H3, elem_of_app in Hx as [Hx|Hx].
      * apply Hs5 in Hx as [Hx| ->]; apply elem_of_app; [by left|right; by left].
      * apply elem_of_app. right. by right.
Qed.

Lemma tarjan_each_component_NoDup limit records found :
  _tarjan_cycles limit records = Some found →
  Forall (fun c : list string => NoDup c) found.
Proof.
  intros Hfound.
  destruct (tarjan_final limit records found Hfound) as (st & -> & [Hnd _] & _).
  apply Forall_forall. intros c Hc. apply (NoDup_concat_each (cycles st)); [|done].
  by apply NoDup_app in Hnd as (? & _).
Qed.

(** No cycle that [detect_cycles] returns repeats a name. *)
Lemma detect_cycles_of_NoDup limit paths edges found :
  detect_cycles_of limit paths edges = Some found →
  Forall (fun c : list string => NoDup c) found.
Proof.
  unfold detect_cycles_of.
  destruct (_tarjan_cycles limit edges) as [tarjan|] eqn:Ht; [|done].
  simpl. intros Heq. injection Heq as <-.
  apply TarjanFacts.unique_cycles_sub; [constructor|].
  apply Forall_app. split; [apply path_cycles_NoDup|].
  by eapply tarjan_each_component_NoDup.
Qed.

End CyclesMore.

(** * The analyzer: claims *)

Section AnalyzerClaims.
Import Store Cypher Analyzer GraphSpec CypherFacts LoaderSpec LoaderFacts AnalyzerFacts
  TarjanSpec TarjanFacts CyclesMore Samples.

(** C1, as stated, fails: in the graph whose only edge is (v, v) the
    path query yields the record [v; v], which the loop drops because
    its [unique_cycle] has one element, Tarjan's pass drops the
    component [v] because its length is 1, and no cycle is reported. *)
Lemma self_loop_alone_is_not_reported :
  all_edges self_loop_db = [("v", "v")]
  ∧ cycle_paths self_loop_db = [["v"; "v"]]
  ∧ _tarjan_cycles stack (all_edges self_loop_db) = Some []
  ∧ detect_cycles stack self_loop_db = Some [].
Proof. split_and!; vm_compute; reflexivity. Qed.

(** C1, amended.  Each cycle that [detect_cycles] returns names two
    nodes or more and repeats none; so no singleton [v] is ever among
    the cycles returned, whether or not the edge (v, v) is stored, and
    a node of a cycle returned is there with another node.  A result
    is returned on a stack that allows as many nested calls of
    [strongconnect] as the edges have ends. *)
Theorem detect_cycles_reports_two_or_more :
  (∀ limit paths edges found,
     detect_cycles_of limit paths edges = Some found →
     Forall (fun c => 2 ≤ length c ∧ NoDup c) found)
  ∧ (∀ limit db found,
       detect_cycles limit db = Some found → ∀ v, [v] ∉ found)
  ∧ (∀ limit db found c v,
       detect_cycles limit db = Some found → c ∈ found → v ∈ c →
       ∃ u, u ∈ c ∧ u ≠ v)
  ∧ (∀ limit paths edges,
       2 * length edges ≤ limit →
       is_Some (detect_cycles_of limit paths edges)).
Proof.
  assert (Hboth : ∀ limit paths edges found,
            detect_cycles_of limit paths edges = Some found →
            Forall (fun c => 2 ≤ length c ∧ NoDup c) found).
  { intros limit paths edges found Hf.
    pose proof (detect_cycles_of_long _ _ _ _ Hf) as Hlong.
    pose proof (detect_cycles_of_NoDup _ _ _ _ Hf) as Hnd.
    rewrite Forall_forall in Hlong, Hnd. apply Forall_forall.
    intros c Hc. split; [by apply Hlong|by apply Hnd]. }
  split_and!.
  - exact Hboth.
  - intros limit db found Hf v Hv.
    specialize (Hboth _ _ _ _ Hf). rewrite Forall_forall in Hboth.
    destruct (Hboth _ Hv) as [Hlen _]. simpl in Hlen. lia.
  - intros limit db found c v Hf Hc Hv.
    specialize (Hboth _ _ _ _ Hf). rewrite Forall_forall in Hboth.
    destruct (Hboth _ Hc) as [Hlen Hnd].
    destruct c as [|a [|b c]]; simpl in Hlen; [lia|lia|].
    apply NoDup_cons in Hnd as [Hab _].
    destruct (decide (a = v)) as [->|Hne].
    + exists b. split; [right; by left|]. intros ->. apply Hab. by left.
    + exists a. split; [by left|done].
  - intros limit paths edges. apply detect_cycles_of_total.
Qed.

(** C2, at the failing input: with the edges a -> b, a -> c and
    b -> c the query returns c at depth 1 and at depth 2, the
    dictionary keeps the last, and c, one edge away from a, is reported
    at depth 2 and as transitive, is listed twice and counted twice;
    [find_impact] does the same to a seen from c. *)
Theorem longer_path_overwrites_depth :
  all_edges shortcut_db = [("a", "b"); ("a", "c"); ("b", "c")]
  ∧ dependency_rows shortcut_db "a" = [("b", 1); ("c", 1); ("c", 2)]
  ∧ find_dependencies shortcut_db "a"
    = {| Dependencies.variable := "a";
         Dependencies.direct_dependencies := ["b"];
         Dependencies.transitive_dependencies := ["c"];
         Dependencies.total_dependencies := 3;
         Dependencies.all_dependencies := ["b"; "c"; "c"];
         Dependencies.depths := [("b", 1); ("c", 2)] |}
  ∧ find_impact shortcut_db "c"
    = {| Impact.variable := "c";
         Impact.directly_affected := ["b"];
         Impact.transitively_affected := ["a"];
         Impact.total_affected := 3;
         Impact.affected_variables := ["a"; "b"; "a"];
         Impact.depths := [("a", 2); ("b", 1)] |}.
Proof. split_and!; vm_compute; reflexivity. Qed.

(** C3, as stated, fails: a store whose fan-in query raises and a
    store that answers every query give the same report, so nothing in
    the report tells the caller of the failure. *)
Lemma metrics_failure_is_not_surfaced :
  raised (fan_in_fails (answers_of empty_db)) = true
  ∧ raised (answers_of empty_db) = false
  ∧ get_metrics_of stack (fan_in_fails (answers_of empty_db))
    = get_metrics_of stack (answers_of empty_db)
  ∧ is_Some (get_metrics_of stack (answers_of empty_db)).
Proof.
  split_and!; try (vm_compute; reflexivity).
  eexists. vm_compute. reflexivity.
Qed.

(** C3, amended.  A failure of one of the seven queries of the
    [queries] dictionary gives the report that an answer without
    records gives, so it is not recorded anywhere; every report
    produced has 0 for a failed count and the empty list for a failed
    list.  The report is produced exactly when [detect_cycles], which
    is called outside the [try], returns: it is not when one of its two
    queries fails or when Tarjan's pass exceeds the stack, and it is on
    a stack that allows as many nested calls as the edges have ends. *)
Theorem metrics_failure_defaults_and_is_silent :
  (∀ limit a, get_metrics_of limit a = get_metrics_of limit (quiet a))
  ∧ (∀ limit a m,
       get_metrics_of limit a = Some m →
       (a_total_variables a = Raises → Metrics.total_variables m = 0)
       ∧ (a_total_dependencies a = Raises → Metrics.total_dependencies m = 0)
       ∧ (a_most_dependent a = Raises → Metrics.most_dependent m = [])
       ∧ (a_most_dependencies a = Raises → Metrics.most_dependencies m = [])
       ∧ (a_isolated_variables a = Raises → Metrics.isolated_variables m = [])
       ∧ (a_root_variables a = Raises → Metrics.root_variables m = [])
       ∧ (a_leaf_variables a = Raises → Metrics.leaf_variables m = []))
  ∧ (∀ limit a,
       is_Some (get_metrics_of limit a)
       ↔ is_Some (detect_cycles_answers limit a))
  ∧ (∀ limit a, a_cycle_paths a = Raises ∨ a_edges a = Raises →
                get_metrics_of limit a = None)
  ∧ (∀ limit a paths edges,
       a_cycle_paths a = Records paths → a_edges a = Records edges →
       _tarjan_cycles limit edges = None →
       get_metrics_of limit a = None)
  ∧ (∀ limit a paths edges,
       a_cycle_paths a = Records paths → a_edges a = Records edges →
       2 * length edges ≤ limit →
       is_Some (get_metrics_of limit a)).
Proof.
  split_and!.
  - intros limit a. unfold get_metrics_of, detect_cycles_answers, quiet; simpl.
    destruct (a_total_variables a), (a_total_dependencies a),
      (a_most_dependent a), (a_most_dependencies a), (a_isolated_variables a),
      (a_root_variables a), (a_leaf_variables a); reflexivity.
  - intros limit a m. unfold get_metrics_of.
    destruct (detect_cycles_answers limit a) as [found|]; [|done].
    simpl. intros Hm. injection Hm as <-. simpl.
    split_and!; by intros ->.
  - intros limit a. unfold get_metrics_of.
    destruct (detect_cycles_answers limit a) as [found|]; simpl.
    + split; intros _; by eexists.
    + split; by intros [? ?].
  - intros limit a [H|H]; unfold get_metrics_of, detect_cycles_answers; rewrite H;
      [done|by destruct (a_cycle_paths a)].
  - intros limit a paths edges Hp He Ht.
    unfold get_metrics_of, detect_cycles_answers, detect_cycles_of.
    by rewrite Hp, He, Ht.
  - intros limit a paths edges Hp He Hlimit.
    unfold get_metrics_of, detect_cycles_answers. rewrite Hp, He.
    destruct (detect_cycles_of_total limit paths edges Hlimit) as [found ->].
    by eexists.
Qed.

Lemma metrics_failure_defaults_and_is_silent_witness :
  (∃ m, get_metrics_of stack (fan_in_fails (answers_of tie_db)) = Some m
        ∧ Metrics.most_dependent m = [])
  ∧ get_metrics_of 2 (answers_of shortcut_db) = None.
Proof.
  destruct metrics_failure_defaults_and_is_silent
    as (_ & Hdef & _ & _ & Hdeep & Hret).
  split.
  - destruct (Hret stack (fan_in_fails (answers_of tie_db)) _ _ eq_refl eq_refl)
      as [m Hm].
    { assert (length (all_edges tie_db) = 2) as -> by (vm_compute; reflexivity).
      unfold stack. lia. }
    exists m. split; [exact Hm|].
    destruct (Hdef stack _ m Hm) as (_ & _ & Hfan & _). exact (Hfan eq_refl).
  - apply (Hdeep 2 (answers_of shortcut_db) _ _ eq_refl eq_refl).
    vm_compute. reflexivity.
Defined.

(** C4, as stated, fails: the queries order by count only and the
    code keeps the rows in the order of the answer.  After [a = c + b]
    the nodes b and c have one incoming edge each, so an answer that
    lists c before b is permitted, and so is one that lists b before c;
    the report for the first lists c before b, which is not the
    ascending order of names, and the two reports differ on one
    graph. *)
Lemma leaderboard_ties_keep_store_order :
  permitted (in_degree tie_db) (variables tie_db) [("c", 1); ("b", 1)]
  ∧ permitted (in_degree tie_db) (variables tie_db) [("b", 1); ("c", 1)]
  ∧ Metrics.most_dependent
      <$> get_metrics_of stack
            (fan_in_answers (answers_of tie_db) [("c", 1); ("b", 1)])
    = Some [("c", 1); ("b", 1)]
  ∧ Metrics.most_dependent
      <$> get_metrics_of stack
            (fan_in_answers (answers_of tie_db) [("b", 1); ("c", 1)])
    = Some [("b", 1); ("c", 1)]
  ∧ sorted_by count_then_name_le [("c", 1); ("b", 1)] = false.
Proof.
  assert (Hgroups : map (fun v => (v, in_degree tie_db v))
                      (filter (fun v => 0 < in_degree tie_db v)
                         (variables tie_db))
                    = [("c", 1); ("b", 1)]) by (vm_compute; reflexivity).
  split_and!; try (vm_compute; reflexivity).
  - exists [("c", 1); ("b", 1)]. rewrite Hgroups. split; [done|].
    split; [|done]. repeat constructor.
  - exists [("b", 1); ("c", 1)]. rewrite Hgroups.
    split; [apply Permutation_swap|]. split; [|done]. repeat constructor.
Qed.

(** C4, amended.  Whatever answers the store gives among those that
    the two leaderboard queries permit, the report lists their rows in
    the order of the answers: at most ten rows in descending order of
    count, each a stored node with its in-degree, which is positive,
    and a node with incoming edges is left out only when ten rows are
    listed, none of them with a smaller count; the fan-out leaderboard
    is the same on the out-degree.  Nothing orders the rows of equal
    count.  The report is produced on a stack that allows as many
    nested calls as the stored relationships have ends. *)
Theorem leaderboards_are_top_ten_by_degree limit db :
  (∀ a m fan_in fan_out,
     a_most_dependent a = leaderboard_records fan_in →
     a_most_dependencies a = leaderboard_records fan_out →
     permitted (in_degree db) (variables db) fan_in →
     permitted (out_degree db) (variables db) fan_out →
     get_metrics_of limit a = Some m →
     Metrics.most_dependent m = fan_in
     ∧ Metrics.most_dependencies m = fan_out
     ∧ top_ten (in_degree db) (variables db) (Metrics.most_dependent m)
     ∧ top_ten (out_degree db) (variables db) (Metrics.most_dependencies m))
  ∧ (∀ m, get_metrics limit db = Some m →
          top_ten (in_degree db) (variables db) (Metrics.most_dependent m)
          ∧ top_ten (out_degree db) (variables db)
              (Metrics.most_dependencies m))
  ∧ (2 * length (depends_on db) ≤ limit → is_Some (get_metrics limit db)).
Proof.
  split_and!.
  - intros a m fan_in fan_out Hin Hout Hpin Hpout. unfold get_metrics_of.
    destruct (detect_cycles_answers limit a) as [found|]; [|done].
    simpl. intros Hm. injection Hm as <-.
    cbv beta iota delta [Metrics.most_dependent Metrics.most_dependencies].
    rewrite Hin, Hout, !leaderboard_round_trip.
    split; [done|]. split; [done|]. split; by apply permitted_top_ten.
  - intros m Hm. apply get_metrics_stored in Hm as (found & _ & ->).
    split; apply leaderboard_top_ten.
  - apply get_metrics_total.
Qed.

(** C9.  In every report that [get_metrics] returns for a stored
    graph, [root_variables] is the list that [find_unused_variables]
    returns, and both are the stored nodes of in-degree 0, in the
    order of the store; the report is returned on a stack that allows
    as many nested calls as the stored relationships have ends. *)
Theorem unused_variables_are_root_variables limit db :
  (∀ m, get_metrics limit db = Some m →
        find_unused_variables db = Metrics.root_variables m)
  ∧ find_unused_variables db = in_degree_zero db
  ∧ (2 * length (depends_on db) ≤ limit → is_Some (get_metrics limit db)).
Proof.
  split_and!.
  - intros m Hm. by apply get_metrics_stored in Hm as (found & _ & ->).
  - unfold find_unused_variables, unused_rows, in_degree_zero.
    apply list_filter_iff. intros v. apply has_incoming_in_degree.
  - apply get_metrics_total.
Qed.

(** C5.  The variable asked about is in none of the lists and is no key
    of the depths of [find_impact] or of [find_dependencies]; every
    other node that a trail joins to it is listed, so the other nodes
    of a cycle through the variable are in both results. *)
Theorem start_is_excluded_others_are_not db v :
  ((v ∉ Impact.affected_variables (find_impact db v))
   ∧ (v ∉ Impact.directly_affected (find_impact db v))
   ∧ (v ∉ Impact.transitively_affected (find_impact db v))
   ∧ (v ∉ map fst (Impact.depths (find_impact db v))))
  ∧ ((v ∉ Dependencies.all_dependencies (find_dependencies db v))
     ∧ (v ∉ Dependencies.direct_dependencies (find_dependencies db v))
     ∧ (v ∉ Dependencies.transitive_dependencies (find_dependencies db v))
     ∧ (v ∉ map fst (Dependencies.depths (find_dependencies db v))))
  ∧ (∀ u p, well_formed db → u ≠ v →
            trail (all_edges db) v p → path_end v p = u →
            u ∈ Dependencies.all_dependencies (find_dependencies db v)
            ∧ u ∈ map fst (Dependencies.depths (find_dependencies db v)))
  ∧ (∀ u p, well_formed db → u ≠ v →
            trail (all_edges db) u p → path_end u p = v →
            u ∈ Impact.affected_variables (find_impact db v)
            ∧ u ∈ map fst (Impact.depths (find_impact db v))).
Proof.
  pose proof (impact_rows_exclude db v) as Hi.
  pose proof (dependency_rows_exclude db v) as Hd.
  split_and!; simpl.
  - done.
  - intros H. apply filtered_keys in H. by rewrite depths_of_keys in H.
  - intros H. apply filtered_keys in H. by rewrite depths_of_keys in H.
  - by rewrite depths_of_keys.
  - done.
  - intros H. apply filtered_keys in H. by rewrite depths_of_keys in H.
  - intros H. apply filtered_keys in H. by rewrite depths_of_keys in H.
  - by rewrite depths_of_keys.
  - intros u p Hwf Hne Hp Hend. rewrite depths_of_keys.
    assert (u ∈ map fst (dependency_rows db v)); [|done].
    unfold dependency_rows.
    rewrite decide_True by by eapply trail_start_stored.
    apply list_elem_of_fmap. exists (u, length p). split; [done|].
    apply elem_of_reach_rows. split; [done|]. by exists p.
  - intros u p Hwf Hne Hp Hend. rewrite depths_of_keys.
    assert (u ∈ map fst (impact_rows db v)); [|done].
    unfold impact_rows.
    rewrite decide_True by (rewrite <- Hend; by eapply trail_end_stored).
    destruct (reversed_trail _ _ _ Hp) as [Hrev Hback]. rewrite Hend in Hrev, Hback.
    apply list_elem_of_fmap. eexists (u, _). split; [done|].
    apply elem_of_reach_rows. split; [done|]. eexists. by split.
Qed.

Lemma start_is_excluded_others_are_not_witness :
  "y" ∈ Dependencies.all_dependencies (find_dependencies two_cycle_db "x")
  ∧ "y" ∈ Impact.affected_variables (find_impact two_cycle_db "x")
  ∧ ("x" ∉ Dependencies.all_dependencies (find_dependencies two_cycle_db "x"))
  ∧ ("x" ∉ Impact.affected_variables (find_impact two_cycle_db "x")).
Proof.
  assert (Hwf : well_formed two_cycle_db)
    by (unfold two_cycle_db; apply loaded_well_formed).
  assert (Hedges : all_edges two_cycle_db = [("x", "y"); ("y", "x")])
    by (vm_compute; reflexivity).
  destruct (start_is_excluded_others_are_not two_cycle_db "x")
    as ((Hi & _) & (Hd & _) & Hdeps & Himp).
  split_and!; [| |exact Hd|exact Hi].
  - apply (Hdeps "y" [("x", "y")] Hwf); [discriminate| |reflexivity].
    rewrite Hedges.
    split; [split_and!|]; [discriminate|by simpl| |apply NoDup_singleton].
    intros e He. apply list_elem_of_singleton in He as ->. by left.
  - apply (Himp "y" [("y", "x")] Hwf); [discriminate| |reflexivity].
    rewrite Hedges.
    split; [split_and!|]; [discriminate|by simpl| |apply NoDup_singleton].
    intros e He. apply list_elem_of_singleton in He as ->. right. by left.
Defined.



End AnalyzerClaims.

Section CycleExtras.
Import Store Cypher Analyzer GraphSpec CypherFacts TarjanSpec TarjanFacts
  MoreSpec TarjanMore CyclesMore.

(** X10.  The components that Tarjan's pass returns are apart: no
    name is in two of them or twice in one, each holds two names or
    more, and every name in them is an end of one of the edges; and a
    result returned is the result on every deeper stack.  The pass
    returns on a stack that allows as many nested calls of
    [strongconnect] as the edges have ends, and raises when no call is
    allowed and there is an edge. *)
Theorem tarjan_components_are_apart limit records :
  (∀ found,
     _tarjan_cycles limit records = Some found →
     NoDup (concat found)
     ∧ Forall (fun c => NoDup c ∧ 2 ≤ length c) found
     ∧ (∀ v, v ∈ concat found → v ∈ endpoint_names records)
     ∧ ∀ limit', limit ≤ limit' → _tarjan_cycles limit' records = Some found)
  ∧ (2 * length records ≤ limit → is_Some (_tarjan_cycles limit records))
  ∧ (records ≠ [] → _tarjan_cycles 0 records = None).
Proof.
  split_and!.
  - intros found Hfound.
    destruct (tarjan_final limit records found Hfound)
      as (st & -> & [Hnd Hin] & Hnames).
    assert (Hc : NoDup (concat (cycles st))) by by apply NoDup_app in Hnd as (? & _).
    split; [done|]. split; [|split].
    + apply Forall_forall. intros c Hc'. split; [by eapply NoDup_concat_each|].
      pose proof (tarjan_cycles_long limit records (cycles st) Hfound) as Hlong.
      rewrite Forall_forall in Hlong. by apply Hlong.
    + intros v Hv. apply Hnames, Hin, elem_of_app. by left.
    + intros limit' Hle. by eapply tarjan_mono.
  - apply tarjan_total.
  - apply tarjan_no_stack.
Qed.

(** X11.  Every result of [detect_cycles] holds each set of names
    once: no two of the cycles returned are the same names in another
    order, none repeats a name, each was found by the path pass or by
    Tarjan's pass, and for every cycle that either pass found a cycle
    with the same names is returned.  A result is returned on a stack
    that allows as many nested calls as the edges have ends. *)
Theorem detect_cycles_reports_each_set_of_names_once limit paths edges :
  (∀ found,
     detect_cycles_of limit paths edges = Some found →
     ∃ tarjan,
       _tarjan_cycles limit edges = Some tarjan
       ∧ NoDup (map cycle_tuple found)
       ∧ (∀ i j c1 c2, found !! i = Some c1 → found !! j = Some c2 →
                       c1 ≡ₚ c2 → i = j)
       ∧ Forall (fun c => NoDup c) found
       ∧ (∀ c, c ∈ found → c ∈ path_cycles paths ∨ c ∈ tarjan)
       ∧ (∀ c, c ∈ path_cycles paths ∨ c ∈ tarjan →
               ∃ c', c' ∈ found ∧ c' ≡ₚ c))
  ∧ (2 * length edges ≤ limit →
     is_Some (detect_cycles_of limit paths edges)).
Proof.
  split; [|apply detect_cycles_of_total].
  intros found Hfound.
  pose proof (detect_cycles_of_NoDup _ _ _ _ Hfound) as Hall.
  unfold detect_cycles_of in Hfound.
  destruct (_tarjan_cycles limit edges) as [tarjan|] eqn:Ht; [|done].
  simpl in Hfound. injection Hfound as <-.
  destruct (unique_cycles_tuples (path_cycles paths ++ tarjan) (∅, []))
    as (H1 & H2 & H3); [set_solver|constructor|].
  exists tarjan. split; [done|]. split; [exact H1|].
  split_and!.
  - intros i j c1 c2 Hi Hj Hp. apply cycle_tuple_eq in Hp.
    eapply (NoDup_lookup _ i j); [exact H1| |].
    + rewrite list_lookup_fmap, Hi. reflexivity.
    + rewrite list_lookup_fmap, Hj. simpl. by rewrite Hp.
  - exact Hall.
  - intros c Hc. apply H3 in Hc. simpl in Hc. by apply elem_of_app in Hc.
  - intros c Hc. assert (Hin : c ∈ [] ++ (path_cycles paths ++ tarjan)).
    { simpl. by apply elem_of_app. }
    apply H2, list_elem_of_fmap in Hin as (c' & Heq & Hc').
    exists c'. split; [done|]. by apply cycle_tuple_eq.
Qed.

End CycleExtras.

(** * Reachability: what the depths are *)

Module ReachMore.
Import Store Cypher Analyzer GraphSpec CypherFacts LoaderSpec AnalyzerFacts
  MoreSpec CyclesMore.

(** *** The dictionary *)

Lemma dict_get_set {V} k k' (v : V) d :
  dict_get k (dict_set k' v d) = if decide (k' = k) then Some v else dict_get k d.
Proof.
  unfold dict_get. induction d as [|[k0 v0] d IH]; simpl.
  - destruct (decide (k' = k)) as [->|Hne].
    + by rewrite bool_decide_eq_true_2.
    + by rewrite bool_decide_eq_false_2.
  - destruct (decide (k0 = k')) as [->|Hne0]; simpl.
    + destruct (decide (k' = k)) as [->|Hne].
      * by rewrite bool_decide_eq_true_2.
      * by rewrite !bool_decide_eq_false_2.
    + destruct (bool_decide (k0 = k)) eqn:Hk0.
      * apply bool_decide_eq_true_1 in Hk0 as ->.
        by rewrite decide_False by congruence.
      * exact IH.
Qed.

Lemma dict_set_NoDup {V} k (v : V) d :
  NoDup (map fst d) → NoDup (map fst (dict_set k v d)).
Proof.
  induction d as [|[k0 v0] d IH]; simpl; intros Hnd.
  - apply NoDup_singleton.
  - apply NoDup_cons in Hnd as [Hk0 Hnd].
    destruct (decide (k0 = k)) as [->|Hne]; simpl.
    + by constructor.
    + constructor; [|by apply IH]. rewrite dict_set_keys. tauto.
Qed.

Lemma depths_of_snoc records r :
  depths_of (records ++ [r]) = dict_set r.1 r.2 (depths_of records).
Proof. unfold depths_of. by rewrite fold_left_app. Qed.

Lemma depths_of_NoDup records : NoDup (map fst (depths_of records)).
Proof.
  induction records as [|r records IH] using rev_ind; [constructor|].
  rewrite depths_of_snoc. by apply dict_set_NoDup.
Qed.

Lemma dict_get_elem_of {V} k (v : V) d :
  NoDup (map fst d) → (k, v) ∈ d ↔ dict_get k d = Some v.
Proof.
  unfold dict_get. induction d as [|[k0 v0] d IH]; simpl; intros Hnd.
  - rewrite elem_of_nil. split; [done|discriminate].
  - apply NoDup_cons in Hnd as [Hk0 Hnd]. rewrite elem_of_cons.
    destruct (bool_decide (k0 = k)) eqn:Hk; simpl.
    + apply bool_decide_eq_true_1 in Hk as ->. split.
      * intros [Heq|Hin]; [congruence|].
        exfalso. apply Hk0. by apply (list_elem_of_fmap_2 fst) in Hin.
      * intros Heq. left. congruence.
    + apply bool_decide_eq_false_1 in Hk. rewrite <- (IH Hnd).
      split; [|tauto]. intros [Heq|Hin]; [congruence|done].
Qed.

(** With the rows in ascending depth, the dictionary keeps for each
    name its greatest depth. *)
Lemma depths_of_sorted records :
  StronglySorted (fun a b : string * nat => a.2 ≤ b.2) records →
  ∀ k d, dict_get k (depths_of records) = Some d →
         (k, d) ∈ records ∧ ∀ d', (k, d') ∈ records → d' ≤ d.
Proof.
  induction records as [|r records IH] using rev_ind; intros Hs k d Hget.
  - discriminate.
  - apply StronglySorted_app in Hs as (Hle & Hs & _).
    rewrite depths_of_snoc, dict_get_set in Hget.
    destruct (decide (r.1 = k)) as [<-|Hne].
    + injection Hget as <-. split.
      * apply elem_of_app. right. destruct r. by left.
      * intros d' Hin. apply elem_of_app in Hin as [Hin|Hin].
        -- apply (Hle (r.1, d') r Hin). by left.
        -- apply list_elem_of_singleton in Hin. by rewrite <- Hin.
    + destruct (IH Hs k d Hget) as [Hin Hmax]. split.
      * apply elem_of_app. by left.
      * intros d' Hin'. apply elem_of_app in Hin' as [Hin'|Hin']; [by apply Hmax|].
        apply list_elem_of_singleton in Hin'. destruct r. simpl in Hne. congruence.
Qed.

(** *** The rows *)

Lemma depth_name_total a b : depth_name_le a b = true ∨ depth_name_le b a = true.
Proof.
  unfold depth_name_le.
  destruct (Nat.ltb_spec a.2 b.2); [by left|].
  destruct (Nat.ltb_spec b.2 a.2); [by right|].
  assert (a.2 = b.2) as -> by lia. rewrite Nat.eqb_refl. simpl.
  apply String.leb_total.
Qed.

Lemma depth_name_trans a b c :
  depth_name_le a b = true → depth_name_le b c = true → depth_name_le a c = true.
Proof.
  unfold depth_name_le.
  rewrite !orb_true_iff, !andb_true_iff, !Nat.ltb_lt, !Nat.eqb_eq.
  intros [?|[? ?]] [?|[? ?]]; try (left; lia).
  right. split; [lia|]. by eapply string_leb_trans.
Qed.

Lemma reach_rows_sorted es v :
  StronglySorted (fun a b : string * nat => a.2 ≤ b.2) (reach_rows es v).
Proof.
  unfold reach_rows.
  eapply StronglySorted_weaken;
    [|apply (order_by_sorted depth_name_le depth_name_total depth_name_trans)].
  intros a b. unfold ordered, depth_name_le.
  rewrite orb_true_iff, andb_true_iff, Nat.ltb_lt, Nat.eqb_eq. lia.
Qed.

Lemma reach_rows_positive es v u d : (u, d) ∈ reach_rows es v → 1 ≤ d.
Proof.
  intros Hr. apply elem_of_reach_rows in Hr as (_ & p & ((Hne & _) & _) & _ & <-).
  destruct p; [done|simpl; lia].
Qed.

(** What [depths] holds for the rows of a reachability query. *)
Lemma reach_depths es v u d :
  (u, d) ∈ depths_of (reach_rows es v) →
  u ≠ v
  ∧ (∃ p, trail es v p ∧ path_end v p = u ∧ length p = d)
  ∧ ∀ p, trail es v p → path_end v p = u → length p ≤ d.
Proof.
  intros Hin. apply dict_get_elem_of in Hin; [|apply depths_of_NoDup].
  destruct (depths_of_sorted _ (reach_rows_sorted es v) u d Hin) as [Hrow Hmax].
  apply elem_of_reach_rows in Hrow as [Hne Hp]. split; [done|]. split; [done|].
  intros p Hp' Hend. apply Hmax, elem_of_reach_rows. split; [done|]. by exists p.
Qed.

(** *** Reading the relationships backwards *)

Lemma reversed_reversed es : reversed (reversed es) = es.
Proof.
  unfold reversed. rewrite map_map. rewrite <- (map_id es) at 2.
  apply map_ext. by intros [a b].
Qed.

Lemma reversed_trail_length es start p :
  trail es start p →
  ∃ q, trail (reversed es) (path_end start p) q
       ∧ path_end (path_end start p) q = start ∧ length q = length p.
Proof.
  intros Hp. destruct (reversed_trail es start p Hp) as [Hq Hend].
  eexists. split; [exact Hq|]. split; [exact Hend|].
  by rewrite length_reverse, length_map.
Qed.

Lemma trail_reversed_iff es u v d :
  (∃ q, trail (reversed es) v q ∧ path_end v q = u ∧ length q = d)
  ↔ (∃ p, trail es u p ∧ path_end u p = v ∧ length p = d).
Proof.
  split.
  - intros (q & Hq & <- & <-).
    destruct (reversed_trail_length _ _ _ Hq) as (p & Hp & Hend & Hlen).
    rewrite reversed_reversed in Hp. by exists p.
  - intros (p & Hp & <- & <-).
    destruct (reversed_trail_length _ _ _ Hp) as (q & Hq & Hend & Hlen).
    by exists q.
Qed.

(** A row of [find_impact] read from the other end is a row of
    [find_dependencies]. *)
Lemma impact_dependency_rows db u v d :
  well_formed db → (u, d) ∈ impact_rows db v ↔ (v, d) ∈ dependency_rows db u.
Proof.
  intros Hwf. unfold impact_rows, dependency_rows. split.
  - destruct (decide (v ∈ variables db)); [|by intros ?%elem_of_nil].
    intros Hr. apply elem_of_reach_rows in Hr as [Hne Hq].
    apply (proj1 (trail_reversed_iff (all_edges db) u v d)) in Hq
      as (p & Hp & Hend & Hlen).
    rewrite decide_True by by eapply trail_start_stored.
    apply elem_of_reach_rows. split; [done|]. by exists p.
  - destruct (decide (u ∈ variables db)); [|by intros ?%elem_of_nil].
    intros Hr. apply elem_of_reach_rows in Hr as [Hne (p & Hp & Hend & Hlen)].
    rewrite decide_True by (rewrite <- Hend; by eapply trail_end_stored).
    apply elem_of_reach_rows. split; [done|].
    apply (proj2 (trail_reversed_iff (all_edges db) u v d)). by exists p.
Qed.

(** *** Direct and transitive *)

Lemma filter_ext_in {A} (P Q : A → Prop) `{∀ x, Decision (P x)}
    `{∀ x, Decision (Q x)} (l : list A) :
  (∀ x, x ∈ l → P x ↔ Q x) → filter P l = filter Q l.
Proof.
  induction l as [|x l IH]; intros Hext; [done|].
  rewrite !filter_cons.
  rewrite IH by (intros y Hy; apply Hext; by right).
  assert (Hx : P x ↔ Q x) by (apply Hext; by left).
  destruct (decide (P x)) as [HP|HP], (decide (Q x)) as [HQ|HQ]; try done;
    exfalso; tauto.
Qed.

Lemma depths_partition records :
  (∀ r, r ∈ records → 1 ≤ r.2) →
  NoDup (map fst (depths_of records))
  ∧ (∀ u, u ∈ map fst (depths_of records) ↔ u ∈ map fst records)
  ∧ map fst (filter (fun vd => vd.2 = 1) (depths_of records))
    ++ map fst (filter (fun vd => 1 < vd.2) (depths_of records))
    ≡ₚ map fst (depths_of records)
  ∧ length (depths_of records) ≤ length records.
Proof.
  intros Hpos. pose proof (depths_of_NoDup records) as Hnd.
  split; [done|]. split; [apply depths_of_keys|]. split.
  - assert (Hd : ∀ r, r ∈ depths_of records → 1 ≤ r.2).
    { intros [k d] Hr. apply dict_get_elem_of in Hr; [|done].
      assert (Hin : (k, d) ∈ records); [|by apply (Hpos (k, d))].
      clear Hnd Hpos. revert Hr.
      induction records as [|r records IH] using rev_ind; [done|].
      rewrite depths_of_snoc, dict_get_set. destruct (decide (r.1 = k)) as [<-|].
      - intros [= <-]. apply elem_of_app. right. destruct r. by left.
      - intros Hr. apply elem_of_app. left. by apply IH. }
    rewrite (filter_ext_in (fun vd : string * nat => 1 < vd.2)
               (fun vd => ¬ vd.2 = 1)).
    + rewrite <- map_app. apply fmap_Permutation, filter_app_complement.
    + intros r Hr. specialize (Hd r Hr). lia.
  - rewrite <- (length_map fst (depths_of records)), <- (length_map fst records).
    apply submseteq_length, NoDup_submseteq; [done|].
    intros u. apply depths_of_keys.
Qed.

End ReachMore.

Section ReachExtras.
Import Store Cypher Analyzer GraphSpec CypherFacts LoaderSpec LoaderFacts
  AnalyzerFacts MoreSpec ReachMore Samples.

(** X12.  The depth that [find_dependencies] records for a variable is
    the number of edges of the longest trail (path that repeats no
    edge) from the variable asked about to it, and the depth that
    [find_impact] records is that of the longest trail from it to the
    variable asked about: the rows come in ascending depth and the
    dictionary keeps the last one of each name. *)
Theorem recorded_depth_is_the_longest_trail db v u d :
  ((u, d) ∈ Dependencies.depths (find_dependencies db v) →
   u ≠ v
   ∧ (∃ p, trail (all_edges db) v p ∧ path_end v p = u ∧ length p = d)
   ∧ ∀ p, trail (all_edges db) v p → path_end v p = u → length p ≤ d)
  ∧ ((u, d) ∈ Impact.depths (find_impact db v) →
     u ≠ v
     ∧ (∃ p, trail (all_edges db) u p ∧ path_end u p = v ∧ length p = d)
     ∧ ∀ p, trail (all_edges db) u p → path_end u p = v → length p ≤ d).
Proof.
  split; simpl.
  - unfold dependency_rows. destruct (decide _); [|by intros ?%elem_of_nil].
    apply reach_depths.
  - unfold impact_rows. destruct (decide _); [|by intros ?%elem_of_nil].
    intros Hin. apply reach_depths in Hin as (Hne & Hq & Hmax).
    split; [done|]. split; [by apply (trail_reversed_iff (all_edges db) u v d)|].
    intros p Hp Hend.
    destruct (reversed_trail_length _ _ _ Hp) as (q & Hq' & Hend' & <-).
    rewrite Hend in Hq', Hend'. by apply Hmax.
Qed.

Lemma recorded_depth_is_the_longest_trail_witness :
  ∃ p, trail (all_edges shortcut_db) "a" p ∧ path_end "a" p = "c" ∧ length p = 2.
Proof.
  destruct (recorded_depth_is_the_longest_trail shortcut_db "a" "c" 2) as [H _].
  assert (Hin : ("c", 2) ∈ Dependencies.depths (find_dependencies shortcut_db "a")).
  { assert (Dependencies.depths (find_dependencies shortcut_db "a")
            = [("b", 1); ("c", 2)]) as -> by (vm_compute; reflexivity).
    right. by left. }
  destruct (H Hin) as (_ & Hp & _). exact Hp.
Defined.

(** X13.  In the result of [find_dependencies], and of [find_impact],
    [depths] has one entry per variable listed, every such variable is
    in exactly one of the direct and the transitive list, and the total
    reported, which counts the rows of the query, is no smaller than
    the number of entries of [depths]. *)
Theorem each_variable_is_direct_or_transitive db v :
  (NoDup (map fst (Dependencies.depths (find_dependencies db v)))
   ∧ (∀ u, u ∈ map fst (Dependencies.depths (find_dependencies db v))
           ↔ u ∈ Dependencies.all_dependencies (find_dependencies db v))
   ∧ Dependencies.direct_dependencies (find_dependencies db v)
     ++ Dependencies.transitive_dependencies (find_dependencies db v)
     ≡ₚ map fst (Dependencies.depths (find_dependencies db v))
   ∧ length (Dependencies.depths (find_dependencies db v))
     ≤ Dependencies.total_dependencies (find_dependencies db v))
  ∧ (NoDup (map fst (Impact.depths (find_impact db v)))
     ∧ (∀ u, u ∈ map fst (Impact.depths (find_impact db v))
             ↔ u ∈ Impact.affected_variables (find_impact db v))
     ∧ Impact.directly_affected (find_impact db v)
       ++ Impact.transitively_affected (find_impact db v)
       ≡ₚ map fst (Impact.depths (find_impact db v))
     ∧ length (Impact.depths (find_impact db v))
       ≤ Impact.total_affected (find_impact db v)).
Proof.
  assert (Hpos : ∀ es r, r ∈ reach_rows es v → 1 ≤ r.2).
  { intros es [u d] Hr. by eapply reach_rows_positive. }
  split; simpl; rewrite length_map; apply depths_partition.
  - unfold dependency_rows. destruct (decide _); [apply Hpos|].
    intros r Hr. by apply elem_of_nil in Hr.
  - unfold impact_rows. destruct (decide _); [apply Hpos|].
    intros r Hr. by apply elem_of_nil in Hr.
Qed.

(** X14.  On a database as the loader builds it, [find_impact] is the
    converse of [find_dependencies]: u is affected by v exactly when v
    is a dependency of u, and the rows of the two queries carry the
    same depths. *)
Theorem impact_is_the_converse_of_dependency db u v :
  well_formed db →
  (u ∈ Impact.affected_variables (find_impact db v)
   ↔ v ∈ Dependencies.all_dependencies (find_dependencies db u))
  ∧ ∀ d, (u, d) ∈ impact_rows db v ↔ (v, d) ∈ dependency_rows db u.
Proof.
  intros Hwf. split; [|intros d; by apply impact_dependency_rows].
  simpl. rewrite !list_elem_of_fmap. split.
  - intros ([u' d] & -> & Hr). exists (v, d). split; [done|].
    by apply impact_dependency_rows.
  - intros ([v' d] & -> & Hr). exists (u, d). split; [done|].
    by apply impact_dependency_rows.
Qed.

Lemma impact_is_the_converse_of_dependency_witness :
  well_formed shortcut_db
  ∧ ("b" ∈ Impact.affected_variables (find_impact shortcut_db "c")
     ↔ "c" ∈ Dependencies.all_dependencies (find_dependencies shortcut_db "b")).
Proof.
  assert (Hwf : well_formed shortcut_db)
    by (unfold shortcut_db; apply loaded_well_formed).
  split; [exact Hwf|].
  destruct (impact_is_the_converse_of_dependency shortcut_db "b" "c" Hwf)
    as [H _].
  exact H.
Defined.

End ReachExtras.

(** * The critical path, the export and the degree lists *)

Module ReportMore.
Import Store Cypher Analyzer Report GraphSpec CypherFacts AnalyzerFacts MoreSpec.

Lemma has_outgoing_out_degree db v :
  negb (has_outgoing db v) ↔ out_degree db v = 0.
Proof.
  unfold has_outgoing, out_degree.
  induction (depends_on db) as [|r rs IH]; simpl; [done|].
  rewrite filter_cons. destruct (decide (from_name r = v)) as [Heq|Hne].
  - rewrite bool_decide_eq_true_2 by done. simpl. split; [done|lia].
  - rewrite bool_decide_eq_false_2 by done. simpl. exact IH.
Qed.

Lemma has_any_either db v :
  has_any db v = has_outgoing db v || has_incoming db v.
Proof.
  unfold has_any, has_outgoing, has_incoming.
  induction (depends_on db) as [|r rs IH]; simpl; [done|].
  rewrite IH. destruct (bool_decide (from_name r = v)),
    (bool_decide (to_name r = v)), (existsb _ rs), (existsb _ rs); done.
Qed.

Lemma self_loop_degrees db v :
  (v, v) ∈ all_edges db → has_incoming db v = true ∧ has_outgoing db v = true.
Proof.
  intros Hin. unfold all_edges in Hin.
  apply list_elem_of_fmap in Hin as (r & Heq & Hr).
  unfold endpoints in Heq. injection Heq as Hf Ht.
  split; apply existsb_exists; exists r;
    (split; [by apply list_elem_of_In|by apply bool_decide_eq_true_2]).
Qed.




(** *** The export loop *)



End ReportMore.

(** * The reports: critical path, export and degree lists *)

Section ReportExtras.
Import Store Cypher Analyzer Report GraphSpec CypherFacts AnalyzerFacts
  MoreSpec ReportMore.



(** X17.  In every report that [get_metrics] returns, a leaf variable
    is a stored variable of out-degree 0, an isolated variable is one
    that is both a root and a leaf, and a variable with a dependency on
    itself is in none of the root, leaf and isolated lists; nor is it
    in the result of [find_unused_variables].  The report is returned
    on a stack that allows as many nested calls as the stored
    relationships have ends. *)
Theorem leaves_and_isolated_by_degree limit db :
  (∀ m, get_metrics limit db = Some m →
        (∀ v, v ∈ Metrics.leaf_variables m
              ↔ v ∈ variables db ∧ out_degree db v = 0)
        ∧ (∀ v, v ∈ Metrics.isolated_variables m
                ↔ v ∈ Metrics.root_variables m ∧ v ∈ Metrics.leaf_variables m)
        ∧ (∀ v, (v, v) ∈ all_edges db →
                (v ∉ Metrics.root_variables m)
                ∧ (v ∉ Metrics.leaf_variables m)
                ∧ (v ∉ Metrics.isolated_variables m)))
  ∧ (∀ v, (v, v) ∈ all_edges db → v ∉ find_unused_variables db)
  ∧ (2 * length (depends_on db) ≤ limit → is_Some (get_metrics limit db)).
Proof.
  split_and!.
  - intros m Hm. apply get_metrics_stored in Hm as (found & _ & ->).
    cbv beta iota delta [Metrics.leaf_variables Metrics.isolated_variables
      Metrics.root_variables].
    unfold leaf_rows, isolated_rows, root_rows.
    split_and!.
    + intros v. rewrite list_elem_of_filter, has_outgoing_out_degree. tauto.
    + intros v. rewrite !list_elem_of_filter, has_any_either.
      destruct (has_outgoing db v), (has_incoming db v); simpl; tauto.
    + intros v Hloop. apply self_loop_degrees in Hloop as [Hin Hout].
      rewrite !list_elem_of_filter, has_any_either, Hin, Hout. simpl.
      split_and!; intros [[] _].
  - intros v Hloop. apply self_loop_degrees in Hloop as [Hin Hout].
    unfold find_unused_variables, unused_rows.
    rewrite list_elem_of_filter, Hin. simpl. intros [[] _].
  - apply get_metrics_total.
Qed.

End ReportExtras.

(** * The reports taken together *)

Module ComposeMore.
Import Parser ParserSpec ParserFacts Store Loader LoaderSpec LoaderFacts
  LoaderMore Cypher Analyzer Report GraphSpec CypherFacts AnalyzerFacts
  MoreSpec ReachMore ReportMore.

Lemma edge_out_degree db e : e ∈ all_edges db → out_degree db e.1 ≠ 0.
Proof.
  unfold all_edges, out_degree. intros He.
  apply list_elem_of_fmap in He as (r & -> & Hr).
  assert (Hin : r ∈ filter (fun r' => from_name r' = (endpoints r).1) (depends_on db))
    by (apply list_elem_of_filter; by split).
  destruct (filter _ _); [by apply elem_of_nil in Hin|done].
Qed.

Lemma edge_in_degree db e : e ∈ all_edges db → in_degree db e.2 ≠ 0.
Proof.
  unfold all_edges, in_degree. intros He.
  apply list_elem_of_fmap in He as (r & -> & Hr).
  assert (Hin : r ∈ filter (fun r' => to_name r' = (endpoints r).2) (depends_on db))
    by (apply list_elem_of_filter; by split).
  destruct (filter _ _); [by apply elem_of_nil in Hin|done].
Qed.

(** No trail leaves a node of out-degree 0. *)
Lemma no_trail_out db v p :
  out_degree db v = 0 → ¬ trail (all_edges db) v p.
Proof.
  intros Hdeg ((Hne & Hc & Hin) & _). destruct p as [|e p]; [done|].
  destruct Hc as [<- _]. apply (edge_out_degree db e); [|done]. apply Hin. by left.
Qed.

(** No trail ends at a node of in-degree 0. *)
Lemma no_trail_in db u v p :
  in_degree db v = 0 → trail (all_edges db) u p → path_end u p ≠ v.
Proof.
  intros Hdeg ((Hne & Hc & Hin) & _) Hend.
  destruct (exists_last Hne) as (q & e & ->). rewrite path_end_app in Hend.
  subst v. apply (edge_in_degree db e); [|done].
  apply Hin, elem_of_app. right. by left.
Qed.

Lemma reach_rows_nil es v :
  (∀ u p, trail es v p → path_end v p = u → u = v) → reach_rows es v = [].
Proof.
  intros H. apply elem_of_nil_inv. intros [u d] Hin.
  apply elem_of_reach_rows in Hin as (Hne & p & Hp & Hend & _).
  by apply Hne, (H u p).
Qed.

Lemma path_rows_nil db u v :
  (∀ p, trail (all_edges db) u p → path_end u p ≠ v) → path_rows db u v = [].
Proof.
  intros H. unfold path_rows. destruct (decide _); [|done].
  assert (filter (fun p => path_end u p = v) (var_length_paths (all_edges db) u) = [])
    as ->; [|done].
  apply elem_of_nil_inv. intros p Hp. apply list_elem_of_filter in Hp as [Hend Hp].
  apply elem_of_var_length_paths in Hp. by apply (H p).
Qed.


End ComposeMore.

Section ComposeExtras.
Import Parser ParserSpec ParserFacts Store Loader LoaderSpec LoaderFacts
  LoaderMore Cypher Analyzer Report GraphSpec CypherFacts AnalyzerFacts
  MoreSpec ReachMore ReportMore ComposeMore Samples.

(** X18.  A variable that [find_unused_variables] returns affects
    nothing: [find_impact] reports no affected variable for it and
    [find_path] finds no path to it from any variable.  Dually, for a
    variable in the [leaf_variables] of [get_metrics],
    [find_dependencies] reports no dependency and [find_path] finds no
    path from it. *)
Theorem unused_affects_nothing_and_leaf_needs_nothing limit db v :
  (v ∈ find_unused_variables db →
   find_impact db v
   = {| Impact.variable := v; Impact.directly_affected := [];
        Impact.transitively_affected := []; Impact.total_affected := 0;
        Impact.affected_variables := []; Impact.depths := [] |}
   ∧ ∀ u, find_path db u v = [])
  ∧ (∀ m, get_metrics limit db = Some m → v ∈ Metrics.leaf_variables m →
          find_dependencies db v
          = {| Dependencies.variable := v;
               Dependencies.direct_dependencies := [];
               Dependencies.transitive_dependencies := [];
               Dependencies.total_dependencies := 0;
               Dependencies.all_dependencies := [];
               Dependencies.depths := [] |}
          ∧ ∀ u, find_path db v u = []).
Proof.
  split.
  - unfold find_unused_variables, unused_rows. intros Hv.
    apply list_elem_of_filter in Hv as [Hroot Hv].
    apply has_incoming_in_degree in Hroot. split.
    + unfold find_impact, impact_rows. rewrite decide_True by done.
      rewrite reach_rows_nil; [done|]. intros u q Hq Hend.
      destruct (proj1 (trail_reversed_iff (all_edges db) u v (length q)))
        as (p & Hp & Hend' & _); [by exists q|].
      by destruct (no_trail_in db u v p Hroot Hp).
    + intros u. unfold find_path. apply path_rows_nil. intros p.
      by apply no_trail_in.
  - intros m Hm. apply get_metrics_stored in Hm as (found & _ & ->).
    cbv beta iota delta [Metrics.leaf_variables]. unfold leaf_rows. intros Hv.
    apply list_elem_of_filter in Hv as [Hleaf Hv].
    apply has_outgoing_out_degree in Hleaf. split.
    + unfold find_dependencies, dependency_rows. rewrite decide_True by done.
      rewrite reach_rows_nil; [done|]. intros u p Hp _.
      by destruct (no_trail_out db v p Hleaf).
    + intros u. unfold find_path. apply path_rows_nil. intros p Hp.
      by destruct (no_trail_out db v p Hleaf).
Qed.

Lemma unused_affects_nothing_and_leaf_needs_nothing_witness :
  Impact.total_affected (find_impact shortcut_db "a") = 0
  ∧ find_path shortcut_db "c" "a" = [].
Proof.
  destruct (unused_affects_nothing_and_leaf_needs_nothing stack shortcut_db "a")
    as [H _].
  assert (Hin : "a" ∈ find_unused_variables shortcut_db).
  { assert (find_unused_variables shortcut_db = ["a"]) as ->
      by (vm_compute; reflexivity).
    apply list_elem_of_here. }
  destruct (H Hin) as [Himpact Hpath]. split.
  - by rewrite Himpact.
  - apply Hpath.
Defined.



End ComposeExtras.
